(** * TibSentenceGathering: alignment validation and near-duplicate removal

    A shallow embedding of [sentence_validation.py] and [deduplication.py]
    together with the properties of the alignment validator, of the batch
    deduplicator and of the checkpointed runner. *)

From Stdlib Require Import String Ascii.
From Stdlib Require Import List ZArith NArith Bool Arith Lia.
From Stdlib Require Import Permutation.
From Stdlib Require Floats.SpecFloat.
Import ListNotations.

Set Implicit Arguments.

(** ** Python strings

    A Python [str] is a sequence of Unicode code points.  Indexing, [len]
    and [startswith] all count code points, so a string is a list of code
    points here. *)

Module Py.

Definition char := N.
Definition str := list char.

(** An ASCII literal of the source, as a Python string. *)
Definition lit (s : string) : str :=
  map N_of_ascii (list_ascii_of_string s).

Definition space : char := 32%N.
Definition newline : char := 10%N.

Definition str_eqb (a b : str) : bool :=
  if list_eq_dec N.eq_dec a b then true else false.

(** [s[i]] for an index the caller has checked to be in range. *)
Definition char_at (s : str) (i : nat) : char := nth i s 0%N.

Fixpoint is_prefix (p s : str) : bool :=
  match p, s with
  | [], _ => true
  | _ :: _, [] => false
  | a :: p', b :: s' => N.eqb a b && is_prefix p' s'
  end.

(** [s.startswith(prefix, start)] *)
Definition startswith (s prefix : str) (start : nat) : bool :=
  is_prefix prefix (skipn start s).

(** [sub in s] *)
Fixpoint contains (sub s : str) : bool :=
  is_prefix sub s ||
  match s with
  | [] => false
  | _ :: s' => contains sub s'
  end.

(** [s.replace(old, new)] for a one-character [old]. *)
Definition replace (old : char) (new : str) (s : str) : str :=
  flat_map (fun c => if N.eqb c old then new else [c]) s.

(** [s.split(sep)] for a one-character [sep]: always at least one piece. *)
Fixpoint split (sep : char) (s : str) : list str :=
  match s with
  | [] => [[]]
  | c :: s' =>
      if N.eqb c sep then [] :: split sep s'
      else match split sep s' with
           | [] => [[c]]
           | piece :: pieces => (c :: piece) :: pieces
           end
  end.

End Py.

Import Py.

(** ** Python values and exceptions

    What [json.loads] returns, and the exceptions the modelled code can
    raise.  A [dict] keeps its keys in insertion order. *)

Module Python.

#[warnings="-register-all"] Inductive value :=
| PyNone
| PyBool (b : bool)
| PyInt (z : Z)
| PyFloat (f : SpecFloat.spec_float)
| PyStr (s : str)
| PyList (items : list value)
| PyDict (items : list (str * value)).

(** [LoopFuel] is not a Python exception: it marks a modelled loop that
    ran out of fuel. *)
Inductive exn :=
| TypeError
| KeyError
| AttributeError
| ValueError
| ZeroDivisionError
| RecursionError
| LoopFuel.

Inductive result (A : Type) :=
| Ok (a : A)
| Raise (e : exn).

Arguments Ok {A} a.
Arguments Raise {A} e.

Definition bind {A B : Type} (r : result A) (k : A -> result B) : result B :=
  match r with
  | Ok a => k a
  | Raise e => Raise e
  end.

Notation "x <- r ;; k" := (bind r (fun x => k))
  (at level 61, r at next level, right associativity).
Notation "' pat <- r ;; k" := (bind r (fun x => match x with pat => k end))
  (at level 61, pat pattern, r at next level, right associativity).

Fixpoint dict_get (d : list (str * value)) (key : str) : option value :=
  match d with
  | [] => None
  | (k, v) :: d' => if str_eqb k key then Some v else dict_get d' key
  end.

(** [d[key] = v]: an existing key keeps its place. *)
Fixpoint dict_set (d : list (str * value)) (key : str) (v : value)
  : list (str * value) :=
  match d with
  | [] => [(key, v)]
  | (k, v') :: d' =>
      if str_eqb k key then (k, v) :: d' else (k, v') :: dict_set d' key v
  end.

(** [key in container] for a [str] key. *)
Definition py_in (key : str) (container : value) : result bool :=
  match container with
  | PyDict d => Ok (match dict_get d key with Some _ => true | None => false end)
  | PyList l =>
      Ok (existsb (fun x => match x with
                            | PyStr s => str_eqb key s
                            | _ => false
                            end) l)
  | PyStr s => Ok (contains key s)
  | PyNone | PyBool _ | PyInt _ | PyFloat _ => Raise TypeError
  end.

(** [container[key]] for a [str] key. *)
Definition getitem (container : value) (key : str) : result value :=
  match container with
  | PyDict d => match dict_get d key with
                | Some v => Ok v
                | None => Raise KeyError
                end
  | _ => Raise TypeError
  end.

(** [container[key] = v] for a [str] key. *)
Definition setitem (container : value) (key : str) (v : value) : result value :=
  match container with
  | PyDict d => Ok (PyDict (dict_set d key v))
  | _ => Raise TypeError
  end.

(** The receiver of a [str] method call such as [v.replace(...)] or
    [v.split(...)]. *)
Definition str_method_receiver (v : value) : result str :=
  match v with
  | PyStr s => Ok s
  | _ => Raise AttributeError
  end.

(** [bool(v)] *)
Definition truthy (v : value) : bool :=
  match v with
  | PyNone => false
  | PyBool b => b
  | PyInt z => negb (z =? 0)%Z
  | PyFloat (SpecFloat.S754_zero _) => false
  | PyFloat _ => true
  | PyStr s => match s with [] => false | _ => true end
  | PyList l => match l with [] => false | _ => true end
  | PyDict d => match d with [] => false | _ => true end
  end.

(** The characters [str.strip()] removes. *)
Definition is_whitespace (c : char) : bool :=
  ((9 <=? c) && (c <=? 13) || (28 <=? c) && (c <=? 32)
   || (c =? 133) || (c =? 160) || (c =? 5760)
   || (8192 <=? c) && (c <=? 8202)
   || (c =? 8232) || (c =? 8233) || (c =? 8239) || (c =? 8287)
   || (c =? 12288))%N.

Fixpoint lstrip (s : str) : str :=
  match s with
  | [] => []
  | c :: s' => if is_whitespace c then lstrip s' else s
  end.

Definition strip (s : str) : str := rev (lstrip (rev (lstrip s))).

End Python.

Import Python.

(** ** sentence_validation.py *)

Module Validation.

Definition sent_br : str := lit "<sent_br>".

(** [s.replace(" ", "")] *)
Definition no_spaces (s : str) : str := replace space [] s.

Definition manhattan_distance (str1 str2 : str) : Z :=
  if negb (length str1 =? length str2) then (-1)%Z
  else
    fold_right Z.add 0%Z
      (map (fun '(c1, c2) => if N.eqb c1 c2 then 0%Z else 1%Z)
           (combine str1 str2)).

(** How a [while] loop of the validator is left. *)
Inductive loop_exit :=
| ReturnFalse
| Done (src_idx : nat) (reconstructed_target : str)
| OutOfFuel.

(** The first loop, [while tgt_idx < len(target_no_spaces)].  Every
    iteration advances [tgt_idx], so [len(target_no_spaces)] iterations
    are enough (see [validate_total]). *)
Fixpoint while_target (fuel : nat) (source_no_spaces target_no_spaces : str)
    (src_idx tgt_idx : nat) (reconstructed_target : str) : loop_exit :=
  if tgt_idx <? length target_no_spaces then
    match fuel with
    | O => OutOfFuel
    | S fuel =>
        if startswith target_no_spaces sent_br tgt_idx then
          if (src_idx <? length source_no_spaces)
             && N.eqb (char_at source_no_spaces src_idx) newline
          then
            while_target fuel source_no_spaces target_no_spaces
              (src_idx + 1) (tgt_idx + length sent_br)
              (reconstructed_target ++ [newline])
          else
            while_target fuel source_no_spaces target_no_spaces
              src_idx (tgt_idx + length sent_br) reconstructed_target
        else if length source_no_spaces <=? src_idx then ReturnFalse
        else
          let reconstructed_target :=
            reconstructed_target ++ [char_at target_no_spaces tgt_idx] in
          if negb (N.eqb (char_at target_no_spaces tgt_idx)
                         (char_at source_no_spaces src_idx))
          then ReturnFalse
          else
            while_target fuel source_no_spaces target_no_spaces
              (src_idx + 1) (tgt_idx + 1) reconstructed_target
    end
  else Done src_idx reconstructed_target.

(** The second loop, [while src_idx < len(source_no_spaces)]. *)
Fixpoint while_source (fuel : nat) (source_no_spaces : str)
    (src_idx : nat) (reconstructed_target : str) : loop_exit :=
  if src_idx <? length source_no_spaces then
    match fuel with
    | O => OutOfFuel
    | S fuel =>
        if negb (N.eqb (char_at source_no_spaces src_idx) newline)
        then ReturnFalse
        else while_source fuel source_no_spaces (src_idx + 1)
               reconstructed_target
    end
  else Done src_idx reconstructed_target.

(** The body of [replace_sentence_breaks_and_validate] once the two
    strings have been read from the data point.  [None] stands for a loop
    that ran out of fuel, which [validate_total] excludes. *)
Definition validate (source target : str) : option bool :=
  let source_no_spaces := no_spaces source in
  let target_no_spaces := no_spaces target in
  let source_processed := source_no_spaces in
  match while_target (length target_no_spaces)
          source_no_spaces target_no_spaces 0 0 [] with
  | ReturnFalse => Some false
  | OutOfFuel => None
  | Done src_idx reconstructed_target =>
      match while_source (length source_no_spaces)
              source_no_spaces src_idx reconstructed_target with
      | ReturnFalse => Some false
      | OutOfFuel => None
      | Done _ reconstructed_target =>
          let processed_target := reconstructed_target in
          let distance := manhattan_distance source_processed processed_target in
          if (distance =? 0)%Z then Some true else Some false
      end
  end.

(** The cursor positions [(src_idx, tgt_idx)] the first loop passes
    through at the head of an iteration. *)
Inductive visits (source target : str) : nat -> nat -> Prop :=
| visits_start : visits source target 0 0
| visits_break_matched s t :
    visits source target s t ->
    t < length target ->
    startswith target sent_br t = true ->
    s < length source -> char_at source s = newline ->
    visits source target (s + 1) (t + length sent_br)
| visits_break_dropped s t :
    visits source target s t ->
    t < length target ->
    startswith target sent_br t = true ->
    ~ (s < length source /\ char_at source s = newline) ->
    visits source target s (t + length sent_br)
| visits_char s t :
    visits source target s t ->
    t < length target ->
    startswith target sent_br t = false ->
    s < length source ->
    char_at target t = char_at source s ->
    visits source target (s + 1) (t + 1).

(** An occurrence of the token in [pre ++ post] that starts inside [pre]
    and ends inside [post]. *)
Definition straddles (pre post : str) : bool :=
  existsb (fun i => (length pre <? i + length sent_br)
                    && startswith (pre ++ post) sent_br i)
          (seq 0 (length pre)).

(** The walk of the first loop over what is left of both strings:
    [Some (Some rest)] when the loop ends with [rest] of the source
    unread, [Some None] when it returns [False]. *)
Fixpoint walk (fuel : nat) (src tgt : str) : option (option str) :=
  match tgt with
  | [] => Some (Some src)
  | c :: tgt' =>
      match fuel with
      | O => None
      | S fuel =>
          if is_prefix sent_br tgt then
            match src with
            | d :: src' =>
                if N.eqb d newline
                then walk fuel src' (skipn (length sent_br) tgt)
                else walk fuel src (skipn (length sent_br) tgt)
            | [] => walk fuel [] (skipn (length sent_br) tgt)
            end
          else
            match src with
            | [] => Some None
            | d :: src' => if N.eqb c d then walk fuel src' tgt' else Some None
            end
      end
  end.

Definition verdict (w : option (option str)) : option bool :=
  match w with
  | None => None
  | Some None => Some false
  | Some (Some []) => Some true
  | Some (Some (_ :: _)) => Some false
  end.

(** [replace_sentence_breaks_and_validate(data_point)]: the two
    subscripts and the two [replace] calls come first, in this order. *)
Definition replace_sentence_breaks_and_validate (data_point : value)
  : result bool :=
  source_value <- getitem data_point (lit "source") ;;
  source <- str_method_receiver source_value ;;
  target_value <- getitem data_point (lit "target") ;;
  target <- str_method_receiver target_value ;;
  match validate source target with
  | Some is_valid => Ok is_valid
  | None => Raise LoopFuel
  end.

(** A decoded line the loop can classify: an object whose ["source"] and
    ["target"], when it has both, are strings. *)
Definition classifiable (data_point : value) : Prop :=
  match data_point with
  | PyDict d =>
      match dict_get d (lit "source"), dict_get d (lit "target") with
      | Some s, Some t => (exists x, s = PyStr x) /\ (exists y, t = PyStr y)
      | _, _ => True
      end
  | _ => False
  end.

(** The lines that are not empty once stripped. *)
Definition non_empty_lines (lines : list str) : list str :=
  filter (fun line => match strip line with [] => false | _ => true end) lines.

(** What [json.loads] does with a line: it returns a value, or raises
    [json.JSONDecodeError] with a message, or raises another exception
    (a plain [ValueError] on an integer literal with too many digits, a
    [RecursionError] on deep nesting). *)
Inductive loads_result :=
| Decoded (data_point : value)
| JSONDecodeError (e : str)
| LoadsRaises (e : exn).

(** An outcome of [json.loads] the loop can classify: a
    [JSONDecodeError], or a classifiable value; any other exception is
    not. *)
Definition recoverable (r : loads_result) : Prop :=
  match r with
  | Decoded data_point => classifiable data_point
  | JSONDecodeError _ => True
  | LoadsRaises _ => False
  end.

Section Lines.

(** [json.loads] *)
Variable json_loads : str -> loads_result.

(** One iteration of [for line_number, line in enumerate(infile, start=1)]. *)
Definition process_line (line_number : nat) (line : str)
    (valid_data_points invalid_data_points : list value)
  : result (list value * list value) :=
  let line := strip line in
  match line with
  | [] => Ok (valid_data_points, invalid_data_points)
  | _ :: _ =>
      match json_loads line with
      | LoadsRaises e => Raise e
      | JSONDecodeError e =>
          Ok (valid_data_points,
              invalid_data_points
              ++ [PyDict [(lit "line_number", PyInt (Z.of_nat line_number));
                          (lit "error", PyStr e);
                          (lit "line", PyStr line)]])
      | Decoded data_point =>
          has_source <- py_in (lit "source") data_point ;;
          missing <- (if negb has_source then Ok true
                      else has_target <- py_in (lit "target") data_point ;;
                           Ok (negb has_target)) ;;
          if (missing : bool) then
            data_point <- setitem data_point (lit "line_number")
                            (PyInt (Z.of_nat line_number)) ;;
            Ok (valid_data_points, invalid_data_points ++ [data_point])
          else
            is_valid <- replace_sentence_breaks_and_validate data_point ;;
            if (is_valid : bool)
            then Ok (valid_data_points ++ [data_point], invalid_data_points)
            else Ok (valid_data_points, invalid_data_points ++ [data_point])
      end
  end.

Fixpoint for_lines (lines : list str) (line_number : nat)
    (valid_data_points invalid_data_points : list value)
  : result (list value * list value) :=
  match lines with
  | [] => Ok (valid_data_points, invalid_data_points)
  | line :: lines' =>
      '(valid_data_points, invalid_data_points) <-
        process_line line_number line valid_data_points invalid_data_points ;;
      for_lines lines' (line_number + 1) valid_data_points invalid_data_points
  end.

(** [process_tibetan_sentences]: [infile] is [None] when the input file
    does not exist, and the lines of the file otherwise.  Any exception
    inside the [try] makes the function return two empty lists. *)
Definition process_tibetan_sentences (infile : option (list str))
  : list value * list value :=
  match infile with
  | None => ([], [])
  | Some lines =>
      match for_lines lines 1 [] [] with
      | Ok (valid_data_points, invalid_data_points) =>
          (valid_data_points, invalid_data_points)
      | Raise _ => ([], [])
      end
  end.

End Lines.

End Validation.

(** ** deduplication.py *)

Module Dedup.

(** A record of the corpus.  The deduplicator reads the output of the
    validator, so [source] and [target] are strings; [filename] is
    whatever value the optional key holds. *)
Record entry := {
  source : str;
  target : str;
  filename : option value
}.

Section Datasketch.

(** The part of [datasketch] the code relies on.  [permuted_hashes b]
    are the [num_perm] permuted hash values of the UTF-8 encoding of [b];
    [bands] and [rows] are the banding parameters that
    [MinHashLSH(threshold=0.9, num_perm=128)] derives from its
    arguments.  [permuted_hashes] is defined on every string, whereas
    [paragraph.encode("utf8")] raises [UnicodeEncodeError] on a paragraph
    with a lone surrogate: what is stated below about a batch or a run
    that returns is stated for sources that can be encoded
    ([Aux.encodable]). *)
Variable bands rows : nat.
Variable permuted_hashes : str -> list N.

Definition num_perm : nat := 128.
Definition max_hash : N := 4294967295%N.

(** The [hashvalues] of a [MinHash] object. *)
Definition MinHash := list N.

Definition MinHash_new : MinHash := repeat max_hash num_perm.

Fixpoint minimum (a b : list N) : list N :=
  match a, b with
  | x :: a', y :: b' => N.min x y :: minimum a' b'
  | _, _ => []
  end.

(** [minhash.update(b)] *)
Definition update (minhash : MinHash) (b : str) : MinHash :=
  minimum (permuted_hashes b) minhash.

Definition str_eq_dec : forall a b : str, {a = b} + {a <> b} :=
  list_eq_dec N.eq_dec.

(** The [MinHash] built from [set(source_text.split("\n"))].  The set is
    read in order of first occurrence; [fingerprint_any_order] shows that
    the order does not matter. *)
Definition fingerprint (source_text : str) : MinHash :=
  fold_left update (nodup str_eq_dec (split newline source_text)) MinHash_new.

(** [hashvalues[start:end]] of band [i]. *)
Definition band (i : nat) (minhash : MinHash) : list N :=
  firstn rows (skipn (i * rows) minhash).

(** Two fingerprints fall in the same bucket of some band: this is what
    the index calls similar. *)
Definition same_bucket (m1 m2 : MinHash) : bool :=
  existsb (fun i => str_eqb (band i m1) (band i m2)) (seq 0 bands).

(** The index: the inserted keys with their fingerprints, oldest first. *)
Definition MinHashLSH := list (nat * MinHash).

(** [lsh.query(minhash)]: the keys whose fingerprint shares a bucket. *)
Definition query (lsh : MinHashLSH) (minhash : MinHash) : list nat :=
  map fst (filter (fun km => same_bucket (snd km) minhash) lsh).

(** [lsh.insert(key, minhash)] raises [ValueError] on a key it holds. *)
Definition insert (lsh : MinHashLSH) (key : nat) (minhash : MinHash)
  : result MinHashLSH :=
  if existsb (Nat.eqb key) (map fst lsh) then Raise ValueError
  else Ok (lsh ++ [(key, minhash)]).

(** [minhashes[key] = minhash] *)
Fixpoint minhashes_set (d : list (nat * MinHash)) (key : nat) (m : MinHash)
  : list (nat * MinHash) :=
  match d with
  | [] => [(key, m)]
  | (k, m') :: d' =>
      if Nat.eqb k key then (k, m) :: d'
      else (k, m') :: minhashes_set d' key m
  end.

(** The two objects the runner shares with every batch call. *)
Record index := {
  lsh : MinHashLSH;
  minhashes : list (nat * MinHash)
}.

Definition empty_index : index := {| lsh := []; minhashes := [] |}.

(** The dictionary built for a unique or a duplicate entry. *)
Definition output_entry (source_text target_text : str) (file_name : value)
  : entry :=
  {| source := source_text;
     target := target_text;
     filename := if truthy file_name then Some file_name else None |}.

(** [for idx, entry in enumerate(chunk)], from position [idx] on. *)
Fixpoint for_entries (chunk : list entry) (idx start_idx : nat) (st : index)
    (unique_entries duplicated_entries : list entry)
  : result (list entry * list entry * index) :=
  match chunk with
  | [] => Ok (unique_entries, duplicated_entries, st)
  | entry :: chunk' =>
      let source_text := source entry in
      let target_text := target entry in
      let file_name :=
        match filename entry with Some v => v | None => PyNone end in
      let minhash := fingerprint source_text in
      match query (lsh st) minhash with
      | [] =>
          lsh' <- insert (lsh st) (start_idx + idx) minhash ;;
          let st' :=
            {| lsh := lsh';
               minhashes :=
                 minhashes_set (minhashes st) (start_idx + idx) minhash |} in
          let unique_entry := output_entry source_text target_text file_name in
          for_entries chunk' (idx + 1) start_idx st'
            (unique_entries ++ [unique_entry]) duplicated_entries
      | _ :: _ =>
          let duplicate_entry :=
            output_entry source_text target_text file_name in
          for_entries chunk' (idx + 1) start_idx st
            unique_entries (duplicated_entries ++ [duplicate_entry])
      end
  end.

Definition create_deduplicated_chunk (chunk : list entry) (start_idx : nat)
    (st : index) : result (list entry * list entry * index) :=
  for_entries chunk 0 start_idx st [] [].

(** The two output files: [None] for a file that does not exist, the
    JSON array it holds otherwise. *)
Record files := {
  output_file : option (list entry);
  duplicates_output_file : option (list entry)
}.

(** [save_checkpoint(output_file, entries, mode)]: the new content of the
    file.  Writing is taken to succeed; [json.dump] to a UTF-8 file
    raises on an entry with a lone surrogate, so what is stated below
    about a run that completes is stated for entries that can be encoded
    ([Aux.encodable_entry]). *)
Definition save_checkpoint (file : option (list entry)) (entries : list entry)
    (mode_w : bool) : option (list entry) :=
  match file with
  | Some existing_entries =>
      if mode_w then Some entries else Some (existing_entries ++ entries)
  | None => Some entries
  end.

(** [for idx, entry in enumerate(dedup_entries)] of the resume branch. *)
Fixpoint replay (dedup_entries : list entry) (idx : nat) (st : index)
  : result index :=
  match dedup_entries with
  | [] => Ok st
  | entry :: rest =>
      let source_text := source entry in
      let minhash := fingerprint source_text in
      lsh' <- insert (lsh st) idx minhash ;;
      replay rest (idx + 1)
        {| lsh := lsh'; minhashes := minhashes_set (minhashes st) idx minhash |}
  end.

(** The resume branch of [process_in_batches]: the number of batches
    taken as processed, the rebuilt index and the output files. *)
Definition resume (fs : files) (chunk_size : nat)
  : result (nat * index * files) :=
  match output_file fs, duplicates_output_file fs with
  | Some dedup_entries, Some dup_entries =>
      let total_processed_entries :=
        length dedup_entries + length dup_entries in
      let processed_batches := total_processed_entries / chunk_size in
      st <- replay dedup_entries 0 empty_index ;;
      Ok (processed_batches, st, fs)
  | _, _ =>
      Ok (0, empty_index,
          {| output_file := save_checkpoint (output_file fs) [] true;
             duplicates_output_file :=
               save_checkpoint (duplicates_output_file fs) [] true |})
  end.

(** What the batch loop carries from one iteration to the next. *)
Record run := {
  run_index : index;
  deduplicated_entries : list entry;
  duplicate_entries : list entry;
  run_files : files
}.

(** [json_data[start_idx:end_idx]] *)
Definition slice (json_data : list entry) (start_idx end_idx : nat)
  : list entry :=
  firstn (end_idx - start_idx) (skipn start_idx json_data).

(** [for batch_num in range(processed_batches, total_batches)] *)
Fixpoint for_batches (batch_nums : list nat) (json_data : list entry)
    (chunk_size checkpoint_interval total_rows total_batches : nat)
    (r : run) : result run :=
  match batch_nums with
  | [] => Ok r
  | batch_num :: batch_nums' =>
      let start_idx := batch_num * chunk_size in
      let end_idx := Nat.min (start_idx + chunk_size) total_rows in
      let chunk := slice json_data start_idx end_idx in
      '(unique_entries, duplicated_entries_batch, st) <-
        create_deduplicated_chunk chunk start_idx (run_index r) ;;
      let deduplicated_entries := deduplicated_entries r ++ unique_entries in
      let duplicate_entries :=
        duplicate_entries r ++ duplicated_entries_batch in
      match checkpoint_interval with
      | O => Raise ZeroDivisionError
      | S _ =>
          let r' :=
            if ((batch_num + 1) mod checkpoint_interval =? 0)
               || (batch_num =? total_batches - 1)
            then
              {| run_index := st;
                 deduplicated_entries := [];
                 duplicate_entries := [];
                 run_files :=
                   {| output_file :=
                        save_checkpoint (output_file (run_files r))
                          deduplicated_entries false;
                      duplicates_output_file :=
                        save_checkpoint (duplicates_output_file (run_files r))
                          duplicate_entries false |} |}
            else
              {| run_index := st;
                 deduplicated_entries := deduplicated_entries;
                 duplicate_entries := duplicate_entries;
                 run_files := run_files r |} in
          for_batches batch_nums' json_data chunk_size checkpoint_interval
            total_rows total_batches r'
      end
  end.

(** [total_batches] of [process_in_batches]. *)
Definition total_batches_of (total_rows chunk_size : nat) : nat :=
  total_rows / chunk_size + (if 0 <? total_rows mod chunk_size then 1 else 0).

(** [process_in_batches]: [json_data] is the content of the input file,
    [fs] the output files found at start-up; the result is the output
    files at the end of the run.  Sizes are counts, so they are natural
    numbers, and a zero divisor raises as in Python. *)
Definition process_in_batches (json_data : list entry) (fs : files)
    (chunk_size checkpoint_interval : nat) : result files :=
  let total_rows := length json_data in
  match chunk_size with
  | O => Raise ZeroDivisionError
  | S _ =>
      let total_batches := total_batches_of total_rows chunk_size in
      '(processed_batches, st, fs) <- resume fs chunk_size ;;
      r <- for_batches (seq processed_batches (total_batches - processed_batches))
             json_data chunk_size checkpoint_interval total_rows total_batches
             {| run_index := st;
                deduplicated_entries := [];
                duplicate_entries := [];
                run_files := fs |} ;;
      Ok (run_files r)
  end.

(** Processing a list of consecutive batches with one shared index, each
    batch starting at the offset of its first record, as the batch loop
    does. *)
Fixpoint process_split (batches : list (list entry)) (offset : nat)
    (st : index) (deduplicated_entries duplicate_entries : list entry)
  : result (list entry * list entry * index) :=
  match batches with
  | [] => Ok (deduplicated_entries, duplicate_entries, st)
  | chunk :: batches' =>
      '(unique_entries, duplicated_entries_batch, st') <-
        create_deduplicated_chunk chunk offset st ;;
      process_split batches' (offset + length chunk) st'
        (deduplicated_entries ++ unique_entries)
        (duplicate_entries ++ duplicated_entries_batch)
  end.

End Datasketch.

(** The number of entries held by the two output files. *)
Definition persisted_count (fs : files) : nat :=
  match output_file fs, duplicates_output_file fs with
  | Some u, Some d => length u + length d
  | Some u, None => length u
  | None, Some d => length d
  | None, None => 0
  end.

(** The entry the deduplicator builds for a record. *)
Definition emitted (e : entry) : entry :=
  output_entry (source e) (target e)
    (match filename e with Some v => v | None => PyNone end).

(** [o] keeps the two strings of [e], and has a [filename] exactly when
    [e] has one with a truthy value, which it then keeps. *)
Definition emitted_from (e o : entry) : Prop :=
  source o = source e
  /\ target o = target e
  /\ (filename o <> None
      <-> exists v, filename e = Some v /\ truthy v = true)
  /\ (forall v, filename o = Some v -> filename e = Some v).

(** Every key of the index is below [n]. *)
Definition keys_below (n : nat) (l : list (nat * list N)) : Prop :=
  Forall (fun km => fst km < n) l.

End Dedup.

(** ** Sample inputs used to run the definitions *)

Module Samples.

(** A decoder that knows four lines: a number, an empty object, a record
    and a nesting too deep for it; it rejects every other line. *)
Definition record_line : str := lit "{source: a, target: a}".

Definition sample_json_loads (line : str) : Validation.loads_result :=
  if str_eqb line (lit "42") then Validation.Decoded (PyInt 42)
  else if str_eqb line (lit "{}") then Validation.Decoded (PyDict [])
  else if str_eqb line record_line then
    Validation.Decoded (PyDict [(lit "source", PyStr (lit "a"));
                                (lit "target", PyStr (lit "a"))])
  else if str_eqb line (lit "[[[[") then Validation.LoadsRaises RecursionError
  else Validation.JSONDecodeError (lit "Expecting value").

(** A hash family that only looks at the length of a paragraph. *)
Definition sample_hashes (b : str) : list N :=
  repeat (N.of_nat (length b)) Dedup.num_perm.

Definition sample_bands : nat := 4.
Definition sample_rows : nat := 32.

(** A hash family on which the paragraph [q] differs from every other
    paragraph in one position out of every 25. *)
Definition banded_hashes (b : str) : list N :=
  if str_eqb b (lit "q")
  then map (fun i => if i mod 25 =? 0 then 0%N else 1%N)
         (seq 0 Dedup.num_perm)
  else repeat 1%N Dedup.num_perm.

Definition record_p : Dedup.entry :=
  {| Dedup.source := lit "p"; Dedup.target := lit "p";
     Dedup.filename := None |}.

Definition record_q : Dedup.entry :=
  {| Dedup.source := lit "q"; Dedup.target := lit "q";
     Dedup.filename := None |}.

Definition record_a : Dedup.entry :=
  {| Dedup.source := lit "ab"; Dedup.target := lit "ab";
     Dedup.filename := Some (PyStr (lit "f.txt")) |}.

Definition record_b : Dedup.entry :=
  {| Dedup.source := lit "cd"; Dedup.target := lit "cd";
     Dedup.filename := Some (PyStr []) |}.

Definition record_c : Dedup.entry :=
  {| Dedup.source := lit "xyz"; Dedup.target := lit "xyz";
     Dedup.filename := None |}.

End Samples.

(** ** Auxiliary notions used to state further properties *)

Module Aux.

Import Validation.

(** What the first loop keeps of the target: the text left once every
    [<sent_br>] met on a left-to-right scan is skipped. *)
Fixpoint without_breaks (fuel : nat) (tgt : str) : str :=
  match tgt with
  | [] => []
  | c :: tgt' =>
      match fuel with
      | O => []
      | S fuel =>
          if is_prefix sent_br tgt
          then without_breaks fuel (skipn (length sent_br) tgt)
          else c :: without_breaks fuel tgt'
      end
  end.

(** The record added to the invalid list for a line that does not
    decode. *)
Definition error_record (line_number : nat) (e line : str) : value :=
  PyDict [(lit "line_number", PyInt (Z.of_nat line_number));
          (lit "error", PyStr e);
          (lit "line", PyStr line)].

(** What a line that is processed without an exception does to the two
    lists. *)
Inductive line_outcome (json_loads : str -> loads_result)
    (line_number : nat) (line : str) (valid invalid : list value)
  : list value -> list value -> Prop :=
| line_empty :
    strip line = [] ->
    line_outcome json_loads line_number line valid invalid valid invalid
| line_undecodable e :
    strip line <> [] ->
    json_loads (strip line) = JSONDecodeError e ->
    line_outcome json_loads line_number line valid invalid
      valid (invalid ++ [error_record line_number e (strip line)])
| line_missing_key d :
    strip line <> [] ->
    json_loads (strip line) = Decoded (PyDict d) ->
    dict_get d (lit "source") = None \/ dict_get d (lit "target") = None ->
    line_outcome json_loads line_number line valid invalid
      valid
      (invalid ++ [PyDict (dict_set d (lit "line_number")
                             (PyInt (Z.of_nat line_number)))])
| line_valid data_point :
    strip line <> [] ->
    json_loads (strip line) = Decoded data_point ->
    replace_sentence_breaks_and_validate data_point = Ok true ->
    line_outcome json_loads line_number line valid invalid
      (valid ++ [data_point]) invalid
| line_invalid data_point :
    strip line <> [] ->
    json_loads (strip line) = Decoded data_point ->
    replace_sentence_breaks_and_validate data_point = Ok false ->
    line_outcome json_loads line_number line valid invalid
      valid (invalid ++ [data_point]).

(** An entry of the valid list: the value decoded from a line of the
    file, on which the validator answered [True]. *)
Definition valid_entry (json_loads : str -> loads_result) (lines : list str)
    (x : value) : Prop :=
  replace_sentence_breaks_and_validate x = Ok true
  /\ exists line, In line lines /\ json_loads (strip line) = Decoded x.

(** An entry of the invalid list: the error record of a line that does
    not decode, or an object without one of the two keys, with its line
    number added, or a decoded value, unchanged, on which the validator
    answered [False]. *)
Definition invalid_entry (json_loads : str -> loads_result) (lines : list str)
    (x : value) : Prop :=
  (exists n line e,
      In line lines /\ json_loads (strip line) = JSONDecodeError e
      /\ x = error_record n e (strip line))
  \/ (exists n line d,
         In line lines /\ json_loads (strip line) = Decoded (PyDict d)
         /\ (dict_get d (lit "source") = None
             \/ dict_get d (lit "target") = None)
         /\ x = PyDict (dict_set d (lit "line_number") (PyInt (Z.of_nat n))))
  \/ (exists line,
         In line lines /\ json_loads (strip line) = Decoded x
         /\ replace_sentence_breaks_and_validate x = Ok false).

(** An outcome of [json.loads] that [copy.deepcopy] copies without
    recursion: anything but an object that holds a list or an object. *)
Definition flat (r : loads_result) : bool :=
  match r with
  | Decoded (PyDict d) =>
      forallb (fun kv => match snd kv with
                         | PyList _ | PyDict _ => false
                         | _ => true
                         end) d
  | _ => true
  end.

(** A string that [str.encode("utf8")] and a UTF-8 text file accept: one
    without a surrogate code point. *)
Definition encodable (s : str) : bool :=
  forallb (fun c => negb ((55296 <=? c) && (c <=? 57343))%N) s.

(** A record that can be fingerprinted and written to the output files:
    its source and target can be encoded, and its file name, if it has
    one, is [None] or a string that can be encoded. *)
Definition encodable_entry (e : Dedup.entry) : bool :=
  encodable (Dedup.source e) && encodable (Dedup.target e)
  && match Dedup.filename e with
     | None | Some PyNone => true
     | Some (PyStr s) => encodable s
     | Some _ => false
     end.

(** The number of positions at which two fingerprints agree. *)
Fixpoint equal_positions (m1 m2 : list N) : nat :=
  match m1, m2 with
  | x :: m1', y :: m2' =>
      (if N.eqb x y then 1 else 0) + equal_positions m1' m2'
  | _, _ => 0
  end.


End Aux.

(** * Properties *)

Module ValidationFacts.

Import Validation.

Lemma sent_br_chars : sent_br = [60; 115; 101; 110; 116; 95; 98; 114; 62]%N.
Proof. reflexivity. Qed.

Lemma sent_br_length : length sent_br = 9.
Proof. reflexivity. Qed.

(** *** Lists seen through an index *)

Lemma skipn_at (l : str) (i : nat) :
  i < length l -> skipn i l = char_at l i :: skipn (i + 1) l.
Proof.
  revert i. induction l as [|a l IH]; intros i Hi; simpl in Hi; [lia|].
  destruct i as [|i]; [reflexivity|].
  simpl. apply IH. lia.
Qed.

Lemma firstn_at (l : str) (i : nat) :
  i < length l -> firstn (i + 1) l = firstn i l ++ [char_at l i].
Proof.
  revert i. induction l as [|a l IH]; intros i Hi; simpl in Hi; [lia|].
  destruct i as [|i]; [reflexivity|].
  simpl. f_equal. apply IH. lia.
Qed.

Lemma skipn_past (l : str) (i : nat) : length l <= i -> skipn i l = [].
Proof. intros. apply skipn_all2. assumption. Qed.

Lemma is_prefix_app (p a x : str) :
  length p <= length a -> is_prefix p (a ++ x) = is_prefix p a.
Proof.
  revert a. induction p as [|c p IH]; intros a Hl; [reflexivity|].
  destruct a as [|d a]; simpl in Hl; [lia|].
  simpl. rewrite IH by lia. reflexivity.
Qed.

Lemma is_prefix_self_app (p x : str) : is_prefix p (p ++ x) = true.
Proof.
  induction p as [|c p IH]; [reflexivity|].
  simpl. rewrite N.eqb_refl. exact IH.
Qed.

Lemma is_prefix_true (p s : str) :
  is_prefix p s = true -> s = p ++ skipn (length p) s.
Proof.
  revert s. induction p as [|c p IH]; intros s H; [reflexivity|].
  destruct s as [|d s]; [discriminate|].
  simpl in H. apply andb_true_iff in H. destruct H as [Hc Hp].
  apply N.eqb_eq in Hc. subst d. simpl. f_equal. apply IH. exact Hp.
Qed.

(** *** The loops and the walk over suffixes *)

Lemma walk_nil_tgt fuel src : walk fuel src [] = Some (Some src).
Proof. destruct fuel; reflexivity. Qed.

Lemma walk_fuel_indep f1 :
  forall f2 src tgt,
    length tgt <= f1 -> length tgt <= f2 -> walk f1 src tgt = walk f2 src tgt.
Proof.
  induction f1 as [|f1 IH]; intros f2 src tgt H1 H2.
  - destruct tgt; simpl in H1; [|lia]. now rewrite !walk_nil_tgt.
  - destruct tgt as [|c tgt']; [now rewrite !walk_nil_tgt|].
    destruct f2 as [|f2]; simpl in H2; [lia|].
    simpl in H1.
    assert (Hs : length (skipn (length sent_br) (c :: tgt')) <= f1 /\
                 length (skipn (length sent_br) (c :: tgt')) <= f2).
    { rewrite length_skipn, sent_br_length. simpl. lia. }
    destruct Hs as [Hs1 Hs2].
    cbn [walk].
    destruct (is_prefix sent_br (c :: tgt')).
    + destruct src as [|d src']; [apply IH; assumption|].
      destruct (N.eqb d newline); apply IH; assumption.
    + destruct src as [|d src']; [reflexivity|].
      destruct (N.eqb c d); [apply IH; lia|reflexivity].
Qed.

Lemma walk_fuel_enough fuel :
  forall src tgt, length tgt <= fuel -> walk fuel src tgt <> None.
Proof.
  induction fuel as [|fuel IH]; intros src tgt H.
  - destruct tgt; simpl in H; [|lia]. discriminate.
  - destruct tgt as [|c tgt']; [discriminate|].
    simpl in H.
    assert (Hs : length (skipn (length sent_br) (c :: tgt')) <= fuel).
    { rewrite length_skipn, sent_br_length. simpl. lia. }
    cbn [walk].
    destruct (is_prefix sent_br (c :: tgt')).
    + destruct src as [|d src']; [apply IH; assumption|].
      destruct (N.eqb d newline); apply IH; assumption.
    + destruct src as [|d src']; [discriminate|].
      destruct (N.eqb c d); [apply IH; lia|discriminate].
Qed.

(** The first loop computes the walk; its buffer is the part of the
    source it has read. *)
Lemma while_target_walk fuel :
  forall source target s t,
    s <= length source ->
    match walk fuel (skipn s source) (skipn t target) with
    | None =>
        while_target fuel source target s t (firstn s source) = OutOfFuel
    | Some None =>
        while_target fuel source target s t (firstn s source) = ReturnFalse
    | Some (Some rest) =>
        exists s',
          while_target fuel source target s t (firstn s source)
          = Done s' (firstn s' source)
          /\ s' <= length source /\ skipn s' source = rest
    end.
Proof.
  induction fuel as [|fuel IH]; intros source target s t Hs.
  - cbn [while_target].
    destruct (Nat.ltb_spec t (length target)) as [Ht|Ht].
    + rewrite (skipn_at target Ht). reflexivity.
    + rewrite (skipn_past target Ht). cbn [walk]. eauto.
  - cbn [while_target].
    destruct (Nat.ltb_spec t (length target)) as [Ht|Ht].
    2:{ rewrite (skipn_past target Ht). cbn [walk]. eauto. }
    unfold startswith.
    assert (Hskip : skipn (length sent_br) (skipn t target)
                    = skipn (t + length sent_br) target).
    { rewrite skipn_skipn. f_equal. lia. }
    rewrite (skipn_at target Ht) in *.
    cbn [walk]. rewrite Hskip.
    destruct (is_prefix sent_br (char_at target t :: skipn (t + 1) target)).
    + destruct (Nat.ltb_spec s (length source)) as [Hlt|Hge].
      * rewrite (skipn_at source Hlt). cbn [andb].
        destruct (N.eqb (char_at source s) newline) eqn:Hnl.
        -- apply N.eqb_eq in Hnl.
           specialize (IH source target (s + 1) (t + length sent_br)).
           rewrite (firstn_at source Hlt), Hnl in IH.
           apply IH. lia.
        -- specialize (IH source target s (t + length sent_br) Hs).
           rewrite (skipn_at source Hlt) in IH. exact IH.
      * rewrite (skipn_past source Hge). cbn [andb].
        specialize (IH source target s (t + length sent_br) Hs).
        rewrite (skipn_past source Hge) in IH. exact IH.
    + destruct (Nat.leb_spec (length source) s) as [Hge|Hlt].
      * rewrite (skipn_past source Hge). reflexivity.
      * rewrite (skipn_at source Hlt).
        destruct (N.eqb (char_at target t) (char_at source s)) eqn:Heq;
          cbn [negb]; [|reflexivity].
        apply N.eqb_eq in Heq.
        specialize (IH source target (s + 1) (t + 1)).
        rewrite (firstn_at source Hlt), <- Heq in IH.
        apply IH. lia.
Qed.

Lemma while_source_all_newlines fuel :
  forall source s rec,
    s <= length source -> length source - s <= fuel ->
    Forall (fun c => c = newline) (skipn s source) ->
    while_source fuel source s rec = Done (length source) rec.
Proof.
  induction fuel as [|fuel IH]; intros source s rec Hs Hf Hall; cbn [while_source].
  - destruct (Nat.ltb_spec s (length source)); [lia|]. f_equal. lia.
  - destruct (Nat.ltb_spec s (length source)) as [Hlt|Hge].
    + rewrite (skipn_at source Hlt) in Hall. inversion Hall; subst.
      rewrite H1. cbn. apply IH; [lia|lia|assumption].
    + f_equal. lia.
Qed.

Lemma while_source_total fuel :
  forall source s rec,
    length source - s <= fuel ->
    while_source fuel source s rec = ReturnFalse
    \/ exists s', while_source fuel source s rec = Done s' rec.
Proof.
  induction fuel as [|fuel IH]; intros source s rec Hf; cbn [while_source].
  - destruct (Nat.ltb_spec s (length source)); [lia|]. eauto.
  - destruct (Nat.ltb_spec s (length source)) as [Hlt|Hge]; [|eauto].
    destruct (negb (N.eqb (char_at source s) newline)); [now left|].
    apply IH. lia.
Qed.

Lemma manhattan_distance_refl (a : str) : manhattan_distance a a = 0%Z.
Proof.
  unfold manhattan_distance. rewrite Nat.eqb_refl. cbn [negb].
  induction a as [|c a IH]; [reflexivity|].
  simpl. rewrite N.eqb_refl. exact IH.
Qed.

Lemma manhattan_distance_length (a b : str) :
  length a <> length b -> manhattan_distance a b = (-1)%Z.
Proof.
  intros H. unfold manhattan_distance.
  apply Nat.eqb_neq in H. rewrite H. reflexivity.
Qed.

(** The validator answers [True] exactly when the first loop ends with
    the whole source read. *)
Lemma validate_walk (source target : str) :
  validate source target
  = verdict (walk (length (no_spaces target))
               (no_spaces source) (no_spaces target)).
Proof.
  unfold validate.
  set (src := no_spaces source).
  set (tgt := no_spaces target).
  pose proof (@while_target_walk (length tgt) src tgt 0 0 (Nat.le_0_l _)) as H.
  cbn [skipn firstn] in H.
  destruct (walk (length tgt) src tgt) as [[rest|]|].
  - destruct H as (s' & -> & Hs' & Hrest).
    destruct (Nat.eq_dec s' (length src)) as [->|Hne].
    + rewrite skipn_all in Hrest. subst rest. cbn [verdict].
      rewrite while_source_all_newlines;
        [|lia|lia|rewrite skipn_all; constructor].
      rewrite firstn_all, manhattan_distance_refl. reflexivity.
    + assert (Hrest' : rest <> []).
      { intros ->. apply (f_equal (@length _)) in Hrest.
        rewrite length_skipn in Hrest. simpl in Hrest. lia. }
      destruct rest as [|x rest]; [congruence|]. cbn [verdict].
      destruct (@while_source_total (length src) src s' (firstn s' src))
        as [->|[s'' ->]]; [lia|reflexivity|].
      rewrite manhattan_distance_length; [reflexivity|].
      rewrite length_firstn. lia.
  - rewrite H. reflexivity.
  - rewrite H. reflexivity.
Qed.

Theorem validate_total (source target : str) :
  exists b, validate source target = Some b.
Proof.
  rewrite validate_walk.
  pose proof (@walk_fuel_enough (length (no_spaces target))
                (no_spaces source) (no_spaces target)
                (Nat.le_refl _)) as H.
  destruct (walk _ _ _) as [[[|x rest]|]|]; cbn [verdict]; eauto.
  congruence.
Qed.

(** *** Targets without a break token *)

Lemma contains_cons_false (sub : str) (c : char) (s : str) :
  contains sub (c :: s) = false ->
  is_prefix sub (c :: s) = false /\ contains sub s = false.
Proof. cbn [contains]. intros H. apply orb_false_iff in H. exact H. Qed.

Lemma walk_unfold_gen fuel fuel' src c tgt' :
  length (c :: tgt') <= fuel -> length (c :: tgt') <= fuel' ->
  walk fuel src (c :: tgt')
  = if is_prefix sent_br (c :: tgt') then
      match src with
      | d :: src' =>
          if N.eqb d newline
          then walk fuel' src' (skipn (length sent_br) (c :: tgt'))
          else walk fuel' src (skipn (length sent_br) (c :: tgt'))
      | [] => walk fuel' [] (skipn (length sent_br) (c :: tgt'))
      end
    else
      match src with
      | [] => Some None
      | d :: src' => if N.eqb c d then walk fuel' src' tgt' else Some None
      end.
Proof.
  intros Hf Hf'. destruct fuel as [|fuel]; simpl in Hf; [lia|].
  simpl in Hf'.
  assert (Hs : length (skipn (length sent_br) (c :: tgt')) <= length tgt').
  { rewrite length_skipn, sent_br_length. simpl. lia. }
  cbn [walk].
  destruct (is_prefix sent_br (c :: tgt')).
  - destruct src as [|d src'];
      [|destruct (N.eqb d newline)]; apply walk_fuel_indep; lia.
  - destruct src as [|d src']; [reflexivity|].
    destruct (N.eqb c d); [apply walk_fuel_indep; lia|reflexivity].
Qed.

Lemma walk_unfold fuel src c tgt' :
  length (c :: tgt') <= fuel ->
  walk fuel src (c :: tgt')
  = if is_prefix sent_br (c :: tgt') then
      match src with
      | d :: src' =>
          if N.eqb d newline
          then walk fuel src' (skipn (length sent_br) (c :: tgt'))
          else walk fuel src (skipn (length sent_br) (c :: tgt'))
      | [] => walk fuel [] (skipn (length sent_br) (c :: tgt'))
      end
    else
      match src with
      | [] => Some None
      | d :: src' => if N.eqb c d then walk fuel src' tgt' else Some None
      end.
Proof. intros Hf. apply walk_unfold_gen; assumption. Qed.

Lemma walk_token_free tgt :
  forall fuel src,
    contains sent_br tgt = false -> length tgt <= fuel ->
    walk fuel src tgt
    = if is_prefix tgt src then Some (Some (skipn (length tgt) src))
      else Some None.
Proof.
  induction tgt as [|c tgt IH]; intros fuel src Hfree Hf.
  - now rewrite walk_nil_tgt.
  - apply contains_cons_false in Hfree. destruct Hfree as [Hhead Htail].
    rewrite walk_unfold by assumption. rewrite Hhead.
    destruct src as [|d src]; [reflexivity|].
    cbn [is_prefix length skipn].
    destruct (N.eqb c d); [|reflexivity].
    simpl in Hf. apply IH; [assumption|lia].
Qed.

Lemma is_prefix_same (a b : str) :
  is_prefix a b = true -> skipn (length a) b = [] -> b = a.
Proof.
  intros Hp Hs. rewrite (@is_prefix_true _ _ Hp), Hs. apply app_nil_r.
Qed.

(** C3, as amended: when the target, once its spaces are removed,
    contains no [<sent_br>], the validator answers [True] if and only if
    source and target are the same string after removing the spaces of
    each. *)
Theorem validate_without_breaks (source target : str) :
  contains sent_br (no_spaces target) = false ->
  (validate source target = Some true
   <-> no_spaces source = no_spaces target).
Proof.
  intros Hfree. rewrite validate_walk.
  rewrite (@walk_token_free _ _ _ Hfree (Nat.le_refl _)).
  split.
  - destruct (is_prefix (no_spaces target) (no_spaces source)) eqn:Hp;
      cbn [verdict]; [|discriminate].
    destruct (skipn _ (no_spaces source)) eqn:Hs; [|discriminate].
    intros _. apply is_prefix_same; assumption.
  - intros ->.
    rewrite <- (app_nil_r (no_spaces target)) at 2.
    rewrite is_prefix_self_app, skipn_all. reflexivity.
Qed.

Lemma validate_without_breaks_witness :
  contains sent_br (no_spaces (lit "a b")) = false
  /\ (validate (lit "ab") (lit "a b") = Some true
      <-> no_spaces (lit "ab") = no_spaces (lit "a b")).
Proof.
  split; [reflexivity|].
  apply (@validate_without_breaks (lit "ab") (lit "a b")). reflexivity.
Defined.

(** C3, as stated, fails: the target [<sent _br>] contains no break token,
    the token appears once its space is removed, is dropped, and the empty
    source validates although the two stripped strings differ. *)
Lemma validate_without_breaks_raw_target_fails :
  ~ (forall source target : str,
       contains sent_br target = false ->
       (validate source target = Some true
        <-> no_spaces source = no_spaces target)).
Proof.
  intros H.
  specialize (H [] (lit "<sent _br>") eq_refl).
  destruct H as [H _]. specialize (H eq_refl). discriminate H.
Qed.

(** C1, as amended: when the space-free target has no break token and
    equals the space-free source without its [k >= 1] trailing newlines,
    the first loop reads the whole target, the second loop consumes the
    trailing newlines without failing, and the final comparison of the
    source with the shorter reconstruction makes the validator answer
    [False]. *)
Theorem trailing_newlines_rejected (source target : str) (k : nat) :
  1 <= k ->
  contains sent_br (no_spaces target) = false ->
  no_spaces source = no_spaces target ++ repeat newline k ->
  while_target (length (no_spaces target))
    (no_spaces source) (no_spaces target) 0 0 []
  = Done (length (no_spaces target)) (no_spaces target)
  /\ while_source (length (no_spaces source)) (no_spaces source)
       (length (no_spaces target)) (no_spaces target)
     = Done (length (no_spaces source)) (no_spaces target)
  /\ manhattan_distance (no_spaces source) (no_spaces target) = (-1)%Z
  /\ validate source target = Some false.
Proof.
  intros Hk Hfree Hsrc.
  set (src := no_spaces source) in *. set (tgt := no_spaces target) in *.
  assert (Hlen : length src = length tgt + k).
  { rewrite Hsrc, length_app, repeat_length. reflexivity. }
  assert (Hskip : skipn (length tgt) src = repeat newline k).
  { rewrite Hsrc, skipn_app, skipn_all, Nat.sub_diag. reflexivity. }
  pose proof (@while_target_walk (length tgt) src tgt 0 0 (Nat.le_0_l _)) as Hw.
  cbn [skipn firstn] in Hw.
  rewrite (@walk_token_free _ _ _ Hfree (Nat.le_refl _)) in Hw.
  rewrite Hsrc, is_prefix_self_app in Hw. rewrite <- Hsrc in Hw.
  destruct Hw as (s' & Hrun & Hs' & Hrest).
  assert (s' = length tgt) as ->.
  { rewrite Hskip in Hrest. apply (f_equal (@length _)) in Hrest.
    rewrite length_skipn, repeat_length in Hrest. lia. }
  assert (Hbuf : firstn (length tgt) src = tgt).
  { rewrite Hsrc, firstn_app, firstn_all, Nat.sub_diag. cbn [firstn].
    apply app_nil_r. }
  rewrite Hbuf in Hrun.
  assert (Htail : while_source (length src) src (length tgt) tgt
                  = Done (length src) tgt).
  { apply while_source_all_newlines; [lia|lia|].
    rewrite Hskip. apply Forall_forall. intros x Hx.
    apply repeat_spec in Hx. exact Hx. }
  assert (Hdist : manhattan_distance src tgt = (-1)%Z).
  { apply manhattan_distance_length. lia. }
  repeat split; try assumption.
  unfold validate. fold src tgt. rewrite Hrun, Htail, Hdist. reflexivity.
Qed.

Lemma trailing_newlines_rejected_witness :
  validate (lit "a" ++ [newline]) (lit "a") = Some false.
Proof.
  apply (@trailing_newlines_rejected (lit "a" ++ [newline]) (lit "a") 1);
    [lia|reflexivity|reflexivity].
Defined.

(** C1, as stated, fails: the source is the target followed by one
    newline, and the validator answers [False]. *)
Lemma trailing_newlines_not_tolerated :
  ~ (forall (source target : str) (k : nat),
       1 <= k ->
       contains sent_br target = false ->
       no_spaces source = no_spaces target ++ repeat newline k ->
       validate source target = Some true).
Proof.
  intros H.
  specialize (H (lit "a" ++ [newline]) (lit "a") 1 (Nat.le_refl 1)
                eq_refl eq_refl).
  discriminate H.
Qed.

(** *** Targets built from the source *)

Lemma replace_app old new (a b : str) :
  replace old new (a ++ b) = replace old new a ++ replace old new b.
Proof. apply flat_map_app. Qed.

Lemma no_spaces_app (a b : str) :
  no_spaces (a ++ b) = no_spaces a ++ no_spaces b.
Proof. apply replace_app. Qed.

Lemma no_spaces_free (s : str) : Forall (fun c => c <> space) (no_spaces s).
Proof.
  induction s as [|c s IH]; [constructor|].
  unfold no_spaces, replace in *. cbn [flat_map].
  destruct (N.eqb_spec c space); [exact IH|].
  constructor; assumption.
Qed.

Lemma no_spaces_fixed (s : str) :
  Forall (fun c => c <> space) s -> no_spaces s = s.
Proof.
  induction 1 as [|c s Hc _ IH]; [reflexivity|].
  unfold no_spaces, replace in *. cbn [flat_map].
  destruct (N.eqb_spec c space); [contradiction|].
  cbn [app]. f_equal. exact IH.
Qed.

Lemma breaks_free_of_spaces (s : str) :
  Forall (fun c => c <> space) s ->
  Forall (fun c => c <> space) (replace newline sent_br s).
Proof.
  induction 1 as [|c s Hc _ IH]; [constructor|].
  unfold replace in *. cbn [flat_map].
  apply Forall_app. split; [|exact IH].
  destruct (N.eqb c newline).
  - rewrite sent_br_chars. repeat constructor; discriminate.
  - constructor; [assumption|constructor].
Qed.

(** A pattern without [<] found at the head of the token-marked string
    was already at the head of the original. *)
Lemma is_prefix_breaks (p : str) :
  forall s,
    Forall (fun c => c <> 60%N) p ->
    is_prefix p (replace newline sent_br s) = true -> is_prefix p s = true.
Proof.
  induction p as [|c p IH]; intros s Hp H; [reflexivity|].
  inversion Hp as [|? ? Hc Hp']; subst.
  destruct s as [|d s]; [discriminate H|].
  unfold replace in H. cbn [flat_map] in H. fold (replace newline sent_br s) in H.
  destruct (N.eqb d newline).
  - rewrite sent_br_chars in H. cbn [app is_prefix] in H.
    apply andb_true_iff in H. destruct H as [H _].
    apply N.eqb_eq in H. contradiction.
  - cbn [app is_prefix] in H |- *.
    apply andb_true_iff in H. destruct H as [H1 H2].
    rewrite H1. cbn [andb]. apply IH; assumption.
Qed.

Lemma token_head_breaks (c : char) (s : str) :
  is_prefix sent_br (c :: replace newline sent_br s) = true ->
  is_prefix sent_br (c :: s) = true.
Proof.
  rewrite sent_br_chars. cbn [is_prefix]. intros H.
  apply andb_true_iff in H. destruct H as [H1 H2]. rewrite H1. cbn [andb].
  apply (@is_prefix_breaks [115; 101; 110; 116; 95; 98; 114; 62]%N s);
    [repeat constructor; discriminate|exact H2].
Qed.

Lemma skipn_token (x : str) : skipn (length sent_br) (sent_br ++ x) = x.
Proof. reflexivity. Qed.

Lemma walk_breaks src :
  forall fuel,
    contains sent_br src = false ->
    length (replace newline sent_br src) <= fuel ->
    walk fuel src (replace newline sent_br src) = Some (Some []).
Proof.
  induction src as [|c src IH]; intros fuel Hfree Hf.
  - apply walk_nil_tgt.
  - apply contains_cons_false in Hfree. destruct Hfree as [Hhead Htail].
    unfold replace in Hf |- *. cbn [flat_map] in Hf |- *.
    fold (replace newline sent_br src) in Hf |- *.
    destruct (N.eqb c newline) eqn:Hc.
    + rewrite length_app in Hf.
      change (sent_br ++ replace newline sent_br src)
        with (60%N :: (skipn 1 sent_br ++ replace newline sent_br src)) in *.
      rewrite walk_unfold by (simpl in *; lia).
      change (60%N :: (skipn 1 sent_br ++ replace newline sent_br src))
        with (sent_br ++ replace newline sent_br src).
      rewrite is_prefix_self_app, Hc, skipn_token.
      apply IH; [assumption|lia].
    + cbn [app] in Hf |- *. rewrite walk_unfold by exact Hf.
      destruct (is_prefix sent_br (c :: replace newline sent_br src)) eqn:Hp.
      * apply token_head_breaks in Hp. congruence.
      * rewrite N.eqb_refl. simpl in Hf. apply IH; [assumption|lia].
Qed.

(** C6, as amended: for every source [S] whose space-free form contains
    no literal [<sent_br>], the target obtained from the space-free [S]
    by replacing every newline with the token validates against [S]. *)
Theorem validate_marked_source (S : str) :
  contains sent_br (no_spaces S) = false ->
  validate S (replace newline sent_br (no_spaces S)) = Some true.
Proof.
  intros Hfree. rewrite validate_walk.
  rewrite (no_spaces_fixed (breaks_free_of_spaces (no_spaces_free S))).
  rewrite walk_breaks; [reflexivity|assumption|apply Nat.le_refl].
Qed.

Lemma validate_marked_source_witness :
  contains sent_br (no_spaces [3904; 32; 3905; 10; 3908; 10]%N) = false
  /\ validate [3904; 32; 3905; 10; 3908; 10]%N
       (replace newline sent_br (no_spaces [3904; 32; 3905; 10; 3908; 10]%N))
     = Some true.
Proof.
  split; [reflexivity|].
  apply (@validate_marked_source [3904; 32; 3905; 10; 3908; 10]%N).
  reflexivity.
Defined.

(** C6, as stated, fails: a source that is the text [<sent_br>] itself
    has no newline, its target is the same text, the token is dropped and
    the whole source is left unread. *)
Lemma validate_marked_source_literal_token_fails :
  ~ (forall S : str,
       validate S (replace newline sent_br (no_spaces S)) = Some true).
Proof.
  intros H. specialize (H (lit "<sent_br>")). discriminate H.
Qed.

(** *** Dropping a spurious break token *)

Lemma walk_step fuel src tgt t :
  t < length tgt -> length tgt <= fuel ->
  walk fuel src (skipn t tgt)
  = if startswith tgt sent_br t then
      match src with
      | d :: src' =>
          if N.eqb d newline
          then walk fuel src' (skipn (t + length sent_br) tgt)
          else walk fuel src (skipn (t + length sent_br) tgt)
      | [] => walk fuel [] (skipn (t + length sent_br) tgt)
      end
    else
      match src with
      | [] => Some None
      | d :: src' =>
          if N.eqb (char_at tgt t) d
          then walk fuel src' (skipn (t + 1) tgt) else Some None
      end.
Proof.
  intros Ht Hf. unfold startswith.
  assert (Hskip : skipn (length sent_br) (skipn t tgt)
                  = skipn (t + length sent_br) tgt).
  { rewrite skipn_skipn. f_equal. lia. }
  pose proof (length_skipn t tgt) as Hl.
  rewrite (skipn_at tgt Ht) in *.
  rewrite walk_unfold by lia. rewrite Hskip. reflexivity.
Qed.

(** From a visited position the walk goes on as from the start. *)
Lemma visits_walk source target s t :
  visits source target s t ->
  forall fuel, length target <= fuel ->
    walk fuel source target = walk fuel (skipn s source) (skipn t target).
Proof.
  induction 1 as [|s t Hv IH Ht Htok Hs Hnl|s t Hv IH Ht Htok Hno
                  |s t Hv IH Ht Htok Hs Hc]; intros fuel Hf.
  - reflexivity.
  - rewrite (IH fuel Hf), walk_step, Htok by assumption.
    rewrite (skipn_at source Hs), Hnl. reflexivity.
  - rewrite (IH fuel Hf), walk_step, Htok by assumption.
    destruct (Nat.lt_ge_cases s (length source)) as [Hs|Hs].
    + rewrite (skipn_at source Hs).
      destruct (N.eqb_spec (char_at source s) newline) as [Hnl|Hnl];
        [|reflexivity].
      exfalso. apply Hno. split; assumption.
    + rewrite (skipn_past source Hs). reflexivity.
  - rewrite (IH fuel Hf), walk_step, Htok by assumption.
    rewrite (skipn_at source Hs), Hc, N.eqb_refl. reflexivity.
Qed.

Lemma startswith_inside (P X Y : str) (t : nat) :
  t + length sent_br <= length P ->
  startswith (P ++ X) sent_br t = startswith (P ++ Y) sent_br t.
Proof.
  intros Ht. unfold startswith.
  rewrite !skipn_app.
  rewrite !is_prefix_app by (rewrite length_skipn; lia).
  reflexivity.
Qed.

Lemma straddles_false (P Q : str) (t : nat) :
  straddles P Q = false ->
  t < length P -> length P < t + length sent_br ->
  startswith (P ++ Q) sent_br t = false.
Proof.
  unfold straddles. intros H Ht Hover.
  destruct (startswith (P ++ Q) sent_br t) eqn:Hst; [|reflexivity].
  assert (Hex : existsb (fun i => (length P <? i + length sent_br)
                                  && startswith (P ++ Q) sent_br i)
                        (seq 0 (length P)) = true).
  { apply existsb_exists. exists t. split.
    - apply in_seq. lia.
    - rewrite Hst. apply andb_true_iff. split; [|reflexivity].
      apply Nat.ltb_lt. exact Hover. }
  congruence.
Qed.

(** Positions visited before a token that sits right after [P] are
    visited as well once that token is deleted, unless the deletion
    creates a token across the cut. *)
Lemma visits_delete source (P Q : str) s t :
  visits source (P ++ sent_br ++ Q) s t ->
  straddles P Q = false ->
  t <= length P ->
  visits source (P ++ Q) s t.
Proof.
  intros Hv Hno. pose proof sent_br_length as Hsb.
  induction Hv as [|s t Hv IH Ht Htok Hs Hnl|s t Hv IH Ht Htok Hn
                   |s t Hv IH Ht Htok Hs Hc]; intros Hle.
  - constructor.
  - apply visits_break_matched; try assumption.
    + apply IH. lia.
    + rewrite length_app. lia.
    + rewrite <- Htok. apply startswith_inside. exact Hle.
  - apply visits_break_dropped; try assumption.
    + apply IH. lia.
    + rewrite length_app. lia.
    + rewrite <- Htok. apply startswith_inside. exact Hle.
  - apply visits_char; try assumption.
    + apply IH. lia.
    + rewrite length_app. lia.
    + destruct (Nat.le_gt_cases (t + length sent_br) (length P)) as [Hin|Hout].
      * rewrite <- Htok. apply startswith_inside. exact Hin.
      * apply straddles_false; [assumption|lia|lia].
    + rewrite <- Hc. unfold char_at. rewrite !app_nth1 by lia. reflexivity.
Qed.

Lemma no_spaces_sent_br : no_spaces sent_br = sent_br.
Proof. reflexivity. Qed.

(** C7, as amended: when the first loop reaches an occurrence of
    [<sent_br>] in the target with the source cursor not on a newline,
    and deleting that occurrence does not bring together the two halves
    of another [<sent_br>], the validator gives the same answer for the
    target with and without that occurrence. *)
Theorem spurious_break_invariance (source pre post : str) (s : nat) :
  visits (no_spaces source) (no_spaces (pre ++ sent_br ++ post))
    s (length (no_spaces pre)) ->
  ~ (s < length (no_spaces source)
     /\ char_at (no_spaces source) s = newline) ->
  straddles (no_spaces pre) (no_spaces post) = false ->
  validate source (pre ++ sent_br ++ post) = validate source (pre ++ post).
Proof.
  rewrite !validate_walk, !no_spaces_app, no_spaces_sent_br.
  set (src := no_spaces source). set (P := no_spaces pre).
  set (Q := no_spaces post).
  intros Hv Hnl Hno.
  pose proof (@visits_delete _ _ _ _ _ Hv Hno (Nat.le_refl _)) as Hv'.
  rewrite (@visits_walk _ _ _ _ Hv _ (Nat.le_refl _)).
  rewrite (@visits_walk _ _ _ _ Hv' _ (Nat.le_refl _)).
  assert (HlenT : length (P ++ sent_br ++ Q)
                  = length P + (length sent_br + length Q)).
  { rewrite !length_app. reflexivity. }
  rewrite walk_step by (rewrite ?HlenT, sent_br_length; lia).
  assert (Htok : startswith (P ++ sent_br ++ Q) sent_br (length P) = true).
  { unfold startswith. rewrite skipn_app, skipn_all, Nat.sub_diag.
    cbn [skipn app]. apply is_prefix_self_app. }
  rewrite Htok.
  assert (Hafter : skipn (length P + length sent_br) (P ++ sent_br ++ Q) = Q).
  { rewrite skipn_app, skipn_all2 by lia.
    replace (length P + length sent_br - length P) with (length sent_br) by lia.
    cbn [app]. apply skipn_token. }
  assert (Hafter' : skipn (length P) (P ++ Q) = Q).
  { rewrite skipn_app, skipn_all, Nat.sub_diag. reflexivity. }
  rewrite Hafter, Hafter'.
  f_equal.
  assert (Hfuel : forall x, walk (length (P ++ sent_br ++ Q)) x Q
                            = walk (length (P ++ Q)) x Q).
  { intros x. apply walk_fuel_indep; rewrite ?HlenT, ?length_app; lia. }
  destruct (Nat.lt_ge_cases s (length src)) as [Hs|Hs].
  - rewrite (skipn_at src Hs).
    destruct (N.eqb_spec (char_at src s) newline) as [Hc|Hc].
    + exfalso. apply Hnl. split; assumption.
    + apply Hfuel.
  - rewrite (skipn_past src Hs). apply Hfuel.
Qed.

Lemma spurious_break_invariance_witness :
  validate (lit "ab") (lit "a" ++ sent_br ++ lit "b")
  = validate (lit "ab") (lit "a" ++ lit "b").
Proof.
  apply (@spurious_break_invariance (lit "ab") (lit "a") (lit "b") 1).
  - apply (@visits_char (lit "ab") (lit "a<sent_br>b") 0 0);
      [apply visits_start|cbn; lia|reflexivity|cbn; lia|reflexivity].
  - intros [_ H]. discriminate H.
  - reflexivity.
Defined.

(** C7, as stated, fails: with source [<senX] and target
    [<sen<sent_br>t_br><senX] the loop reaches the token at position 4
    with the source cursor on [X]; the validator answers [False] for this
    target and [True] once the token is deleted, because the deletion
    leaves [<sent_br><senX]. *)
Lemma spurious_break_deletion_changes_verdict :
  ~ (forall (source pre post : str) (s : nat),
       visits (no_spaces source) (no_spaces (pre ++ sent_br ++ post))
         s (length (no_spaces pre)) ->
       ~ (s < length (no_spaces source)
          /\ char_at (no_spaces source) s = newline) ->
       validate source (pre ++ sent_br ++ post)
       = validate source (pre ++ post)).
Proof.
  intros H.
  specialize (H (lit "<senX") (lit "<sen") (lit "t_br><senX") 4).
  assert (Hv : visits (no_spaces (lit "<senX"))
                 (no_spaces (lit "<sen" ++ sent_br ++ lit "t_br><senX"))
                 4 (length (no_spaces (lit "<sen")))).
  { pose (src := no_spaces (lit "<senX")).
    pose (tgt := no_spaces (lit "<sen" ++ sent_br ++ lit "t_br><senX")).
    assert (H1 : visits src tgt 1 1).
    { apply (@visits_char src tgt 0 0);
        [apply visits_start|cbn; lia|reflexivity|cbn; lia|reflexivity]. }
    assert (H2 : visits src tgt 2 2).
    { apply (@visits_char src tgt 1 1);
        [exact H1|cbn; lia|reflexivity|cbn; lia|reflexivity]. }
    assert (H3 : visits src tgt 3 3).
    { apply (@visits_char src tgt 2 2);
        [exact H2|cbn; lia|reflexivity|cbn; lia|reflexivity]. }
    apply (@visits_char src tgt 3 3);
      [exact H3|cbn; lia|reflexivity|cbn; lia|reflexivity]. }
  specialize (H Hv).
  assert (Hc : ~ (4 < length (no_spaces (lit "<senX"))
                  /\ char_at (no_spaces (lit "<senX")) 4 = newline)).
  { intros [_ Hx]. discriminate Hx. }
  specialize (H Hc). discriminate H.
Qed.

Example validate_spec_scenario_1 :
  validate ([3904; 3905; 3906; 10; 3908; 3909]%N)
           ([3904; 3905; 3906]%N ++ sent_br ++ [3908; 3909]%N) = Some true.
Proof. reflexivity. Qed.

Example validate_spec_scenario_2 :
  validate ([3904; 3905; 3906; 10; 3908; 3909]%N)
           ([3904; 3905; 3906; 3908; 3909]%N) = Some false.
Proof. reflexivity. Qed.

End ValidationFacts.

Module LineFacts.

Import Validation.

Section Lines.

Variable json_loads : str -> loads_result.

Lemma for_lines_app (l1 l2 : list str) :
  forall n valid invalid,
    for_lines json_loads (l1 ++ l2) n valid invalid
    = bind (for_lines json_loads l1 n valid invalid)
        (fun vi => for_lines json_loads l2 (n + length l1) (fst vi) (snd vi)).
Proof.
  induction l1 as [|line l1 IH]; intros n valid invalid.
  - cbn. rewrite Nat.add_0_r. reflexivity.
  - cbn [app for_lines length].
    destruct (process_line json_loads n line valid invalid) as [[v i]|e];
      cbn [bind]; [|reflexivity].
    rewrite IH. replace (n + 1 + length l1) with (n + S (length l1)) by lia.
    reflexivity.
Qed.

(** One line whose processing raises empties both result lists. *)
Lemma raising_line_aborts (lines : list str) (line : str) :
  In line lines ->
  (forall n valid invalid,
      exists e, process_line json_loads n line valid invalid = Raise e) ->
  process_tibetan_sentences json_loads (Some lines) = ([], []).
Proof.
  intros Hin Hraise.
  apply in_split in Hin. destruct Hin as (before & after & ->).
  unfold process_tibetan_sentences. rewrite for_lines_app.
  destruct (for_lines json_loads before 1 [] []) as [[v i]|e];
    cbn [bind fst snd for_lines]; [|reflexivity].
  destruct (Hraise (1 + length before) v i) as [e ->]. reflexivity.
Qed.

(** What one line does when [json.loads] raises nothing but
    [JSONDecodeError] on it and its decoded value, if any, is an object
    with string fields: an empty line changes nothing; a line that does
    not decode adds the synthetic record to the invalid list; an object
    without one of the keys is added to the invalid list with its line
    number; any other object is added to one of the two lists. *)
Lemma process_line_recovers (n : nat) (line : str) (valid invalid : list value) :
  recoverable (json_loads (strip line)) ->
  match strip line with
  | [] => process_line json_loads n line valid invalid = Ok (valid, invalid)
  | _ :: _ =>
      match json_loads (strip line) with
      | LoadsRaises _ => False
      | JSONDecodeError e =>
          process_line json_loads n line valid invalid
          = Ok (valid,
                invalid
                ++ [PyDict [(lit "line_number", PyInt (Z.of_nat n));
                            (lit "error", PyStr e);
                            (lit "line", PyStr (strip line))]])
      | Decoded v =>
          exists d, v = PyDict d /\
            match dict_get d (lit "source"), dict_get d (lit "target") with
            | Some _, Some _ =>
                process_line json_loads n line valid invalid
                = Ok (valid ++ [v], invalid)
                \/ process_line json_loads n line valid invalid
                   = Ok (valid, invalid ++ [v])
            | _, _ =>
                process_line json_loads n line valid invalid
                = Ok (valid,
                      invalid
                      ++ [PyDict (dict_set d (lit "line_number")
                                    (PyInt (Z.of_nat n)))])
            end
      end
  end.
Proof.
  intros Hok. unfold process_line.
  destruct (strip line) as [|c rest]; [reflexivity|].
  destruct (json_loads (c :: rest)) as [v|e|e];
    [|reflexivity|exact Hok].
  cbn [recoverable] in Hok.
  destruct v as [| | | | |l|d]; try contradiction.
  exists d. split; [reflexivity|].
  cbn [classifiable] in Hok. cbn [py_in bind].
  destruct (dict_get d (lit "source")) as [vs|] eqn:Hs; cbn [negb bind];
    [|reflexivity].
  destruct (dict_get d (lit "target")) as [vt|] eqn:Ht; cbn [negb bind];
    [|reflexivity].
  destruct Hok as [[x ->] [y ->]].
  unfold replace_sentence_breaks_and_validate, getitem.
  rewrite Hs, Ht. cbn [bind str_method_receiver].
  destruct (ValidationFacts.validate_total x y) as [b ->]. cbn [bind].
  destruct b; [left|right]; reflexivity.
Qed.

(** With only such lines the loop does not raise, and every non-empty
    line adds exactly one entry to the valid or to the invalid list. *)
Lemma for_lines_partition (lines : list str) :
  (forall line, In line lines -> strip line <> [] ->
                recoverable (json_loads (strip line))) ->
  forall n valid invalid,
  exists valid' invalid',
    for_lines json_loads lines n valid invalid
    = Ok (valid ++ valid', invalid ++ invalid')
    /\ length valid' + length invalid' = length (non_empty_lines lines).
Proof.
  induction lines as [|line lines IH]; intros Hok n valid invalid.
  - exists [], []. cbn. rewrite !app_nil_r. split; reflexivity.
  - assert (Hline : strip line <> [] -> recoverable (json_loads (strip line))).
    { apply Hok. left. reflexivity. }
    assert (Hrest : forall l, In l lines -> strip l <> [] ->
                      recoverable (json_loads (strip l))).
    { intros l Hin. apply Hok. right. exact Hin. }
    cbn [for_lines non_empty_lines filter].
    destruct (strip line) as [|c rest] eqn:Hs.
    + assert (Hstep : process_line json_loads n line valid invalid
                      = Ok (valid, invalid)).
      { unfold process_line. rewrite Hs. reflexivity. }
      rewrite Hstep. cbn [bind]. apply IH. exact Hrest.
    + specialize (Hline ltac:(discriminate)).
      pose proof (process_line_recovers n line valid invalid) as Hstep.
      rewrite Hs in Hstep. specialize (Hstep Hline).
      assert (Hone : exists x,
                 process_line json_loads n line valid invalid
                 = Ok (valid ++ [x], invalid)
                 \/ process_line json_loads n line valid invalid
                    = Ok (valid, invalid ++ [x])).
      { destruct (json_loads (c :: rest)) as [v|e|e];
          [|eauto|contradiction].
        destruct Hstep as (d & -> & Hstep).
        destruct (dict_get d (lit "source")); [|eauto].
        destruct (dict_get d (lit "target")); [|eauto].
        exists (PyDict d). exact Hstep. }
      destruct Hone as [x [-> | ->]]; cbn [bind].
      * destruct (IH Hrest (n + 1) (valid ++ [x]) invalid)
          as (v' & i' & -> & Hlen).
        exists (x :: v'), i'. rewrite <- app_assoc. cbn [app length].
        split; [reflexivity|]. fold (non_empty_lines lines). lia.
      * destruct (IH Hrest (n + 1) valid (invalid ++ [x]))
          as (v' & i' & -> & Hlen).
        exists v', (x :: i'). rewrite <- app_assoc. cbn [app length].
        split; [reflexivity|]. fold (non_empty_lines lines). lia.
Qed.

End Lines.

(** C9, the defect: a non-empty line that decodes to a JSON number, or
    to an object whose ["source"] is [null], raises inside the loop; the
    handler around the loop then returns two empty lists, so the run is
    aborted and no line, valid or not, ends up in either set. *)
Theorem unrecoverable_line_aborts_run
    (json_loads : str -> loads_result) (lines : list str) (line : str)
    (data_point : value) :
  In line lines ->
  strip line <> [] ->
  json_loads (strip line) = Decoded data_point ->
  ((exists z, data_point = PyInt z)
   \/ (exists d t, data_point = PyDict d
                   /\ dict_get d (lit "source") = Some PyNone
                   /\ dict_get d (lit "target") = Some t)) ->
  process_tibetan_sentences json_loads (Some lines) = ([], []).
Proof.
  intros Hin Hne Hdec Hbad.
  apply (@raising_line_aborts json_loads lines line Hin).
  intros n valid invalid. unfold process_line.
  destruct (strip line) as [|c rest] eqn:Hs; [congruence|].
  rewrite Hdec.
  destruct Hbad as [[z ->]|(d & t & -> & Hsrc & Htgt)].
  - exists TypeError. reflexivity.
  - exists AttributeError.
    unfold py_in. rewrite Hsrc, Htgt. cbn [negb bind].
    unfold replace_sentence_breaks_and_validate, getitem.
    rewrite Hsrc. reflexivity.
Qed.

Lemma unrecoverable_line_aborts_run_witness :
  process_tibetan_sentences Samples.sample_json_loads
    (Some [Samples.record_line; lit "42"]) = ([], [])
  /\ process_tibetan_sentences Samples.sample_json_loads
       (Some [Samples.record_line])
     = ([PyDict [(lit "source", PyStr (lit "a"));
                 (lit "target", PyStr (lit "a"))]], []).
Proof.
  split; [|reflexivity].
  apply (@unrecoverable_line_aborts_run Samples.sample_json_loads
           [Samples.record_line; lit "42"] (lit "42") (PyInt 42)).
  - right. left. reflexivity.
  - discriminate.
  - reflexivity.
  - left. exists 42%Z. reflexivity.
Defined.

End LineFacts.

Module DedupFacts.

Import Dedup.

Section Datasketch.

Variable bands rows : nat.
Variable permuted_hashes : str -> list N.

(** *** The fingerprint and the index *)

Lemma minimum_comm_assoc (a b m : list N) :
  minimum a (minimum b m) = minimum b (minimum a m).
Proof.
  revert b m. induction a as [|x a IH]; intros b m.
  - destruct b, m; reflexivity.
  - destruct b as [|y b]; [destruct m; reflexivity|].
    destruct m as [|z m]; [reflexivity|].
    cbn [minimum]. rewrite IH. f_equal.
    rewrite !N.min_assoc. f_equal. apply N.min_comm.
Qed.

Lemma fold_update_any_order (l l' : list str) :
  Permutation l l' ->
  forall m, fold_left (update permuted_hashes) l m
            = fold_left (update permuted_hashes) l' m.
Proof.
  induction 1 as [|x l l' _ IH|x y l|l l' l'' _ IH1 _ IH2]; intros m.
  - reflexivity.
  - cbn [fold_left]. apply IH.
  - cbn [fold_left]. f_equal. unfold update. apply minimum_comm_assoc.
  - rewrite IH1. apply IH2.
Qed.

(** The fingerprint does not depend on the order in which the set of
    paragraphs is read. *)
Lemma fingerprint_any_order (source_text : str) (paragraphs : list str) :
  Permutation (nodup str_eq_dec (split newline source_text)) paragraphs ->
  fingerprint permuted_hashes source_text
  = fold_left (update permuted_hashes) paragraphs MinHash_new.
Proof. intros H. unfold fingerprint. apply fold_update_any_order. exact H. Qed.

Lemma str_eqb_refl (a : str) : str_eqb a a = true.
Proof. unfold str_eqb. destruct (list_eq_dec N.eq_dec a a); congruence. Qed.



Lemma same_bucket_refl (m : MinHash) :
  1 <= bands -> same_bucket bands rows m m = true.
Proof.
  intros Hb. unfold same_bucket. destruct bands as [|n]; [lia|].
  cbn [seq existsb]. rewrite str_eqb_refl. reflexivity.
Qed.

Lemma query_nil_iff (l : MinHashLSH) (m : MinHash) :
  query bands rows l m = []
  <-> forall km, In km l -> same_bucket bands rows (snd km) m = false.
Proof.
  unfold query. induction l as [|km l IH]; cbn [filter map].
  - split; [intros _ ? []|reflexivity].
  - destruct (same_bucket bands rows (snd km) m) eqn:Hb; cbn [map].
    + split; [discriminate|].
      intros H. specialize (H km (or_introl eq_refl)). congruence.
    + rewrite IH. split.
      * intros H km' [<-|Hin]; [exact Hb|apply H; exact Hin].
      * intros H km' Hin. apply H. right. exact Hin.
Qed.

Lemma insert_fresh (l : MinHashLSH) (key : nat) (m : MinHash) :
  keys_below key l -> insert l key m = Ok (l ++ [(key, m)]).
Proof.
  intros Hk. unfold insert.
  assert (H : existsb (Nat.eqb key) (map fst l) = false).
  { induction Hk as [|km l Hlt _ IH]; [reflexivity|].
    cbn [map existsb]. rewrite IH, orb_false_r.
    apply Nat.eqb_neq. destruct km as [k x]. cbn in Hlt |- *. lia. }
  rewrite H. reflexivity.
Qed.

Lemma keys_below_weaken (n n' : nat) (l : MinHashLSH) :
  n <= n' -> keys_below n l -> keys_below n' l.
Proof.
  intros Hle H. unfold keys_below in *.
  eapply Forall_impl; [|exact H]. cbn. intros; lia.
Qed.

Lemma keys_below_snoc (n : nat) (l : MinHashLSH) (m : MinHash) :
  keys_below n l -> keys_below (n + 1) (l ++ [(n, m)]).
Proof.
  intros H. apply Forall_app. split.
  - apply (@keys_below_weaken n (n + 1)); [lia|exact H].
  - constructor; [cbn; lia|constructor].
Qed.

(** *** One batch *)

Lemma for_entries_shift (chunk : list entry) :
  forall idx start idx' start' st U D,
    start + idx = start' + idx' ->
    for_entries bands rows permuted_hashes chunk idx start st U D
    = for_entries bands rows permuted_hashes chunk idx' start' st U D.
Proof.
  induction chunk as [|e chunk IH]; intros idx start idx' start' st U D Heq;
    [reflexivity|].
  cbn [for_entries]. rewrite Heq.
  destruct (query bands rows (lsh st) _).
  - destruct (insert (lsh st) (start' + idx') _); cbn [bind]; [|reflexivity].
    apply IH. lia.
  - apply IH. lia.
Qed.

Lemma for_entries_acc (chunk : list entry) :
  forall idx start st U D,
    for_entries bands rows permuted_hashes chunk idx start st U D
    = bind (for_entries bands rows permuted_hashes chunk idx start st [] [])
        (fun r => Ok (U ++ fst (fst r), D ++ snd (fst r), snd r)).
Proof.
  induction chunk as [|e chunk IH]; intros idx start st U D.
  - cbn. rewrite !app_nil_r. reflexivity.
  - cbn [for_entries].
    destruct (query bands rows (lsh st) _).
    + destruct (insert (lsh st) (start + idx) _); cbn [bind]; [|reflexivity].
      rewrite IH. rewrite (IH _ _ _ ([] ++ _) []).
      destruct (for_entries bands rows permuted_hashes chunk (idx + 1) start _ [] [])
        as [[[u d] st']|err]; cbn [bind fst snd]; [|reflexivity].
      rewrite <- !app_assoc. reflexivity.
    + rewrite IH. rewrite (IH _ _ _ [] ([] ++ _)).
      destruct (for_entries bands rows permuted_hashes chunk (idx + 1) start _ [] [])
        as [[[u d] st']|err]; cbn [bind fst snd]; [|reflexivity].
      rewrite <- !app_assoc. reflexivity.
Qed.

Lemma for_entries_app (c1 c2 : list entry) :
  forall idx start st U D,
    for_entries bands rows permuted_hashes (c1 ++ c2) idx start st U D
    = bind (for_entries bands rows permuted_hashes c1 idx start st U D)
        (fun r => for_entries bands rows permuted_hashes c2
                    (idx + length c1) start (snd r) (fst (fst r)) (snd (fst r))).
Proof.
  induction c1 as [|e c1 IH]; intros idx start st U D.
  - cbn. rewrite Nat.add_0_r. reflexivity.
  - cbn [app for_entries length].
    replace (idx + S (length c1)) with (idx + 1 + length c1) by lia.
    destruct (query bands rows (lsh st) _).
    + destruct (insert (lsh st) (start + idx) _); cbn [bind]; [|reflexivity].
      apply IH.
    + apply IH.
Qed.

Lemma for_entries_count (chunk : list entry) :
  forall idx start st U D u d st',
    for_entries bands rows permuted_hashes chunk idx start st U D
    = Ok (u, d, st') ->
    length u + length d = length U + length D + length chunk.
Proof.
  induction chunk as [|e chunk IH]; intros idx start st U D u d st' H.
  - cbn in H. inversion H; subst. cbn. lia.
  - cbn [for_entries] in H.
    destruct (query bands rows (lsh st) _).
    + destruct (insert (lsh st) (start + idx) _); cbn [bind] in H;
        [|discriminate].
      apply IH in H. rewrite length_app in H. cbn [length] in *. lia.
    + apply IH in H. rewrite length_app in H. cbn [length] in *. lia.
Qed.

(** With every key of the index below the first identifier of the batch,
    no insertion fails. *)
Lemma for_entries_fresh (chunk : list entry) :
  forall idx start st U D,
    keys_below (start + idx) (lsh st) ->
    exists u d st',
      for_entries bands rows permuted_hashes chunk idx start st U D
      = Ok (u, d, st')
      /\ keys_below (start + idx + length chunk) (lsh st').
Proof.
  induction chunk as [|e chunk IH]; intros idx start st U D Hk.
  - exists U, D, st. cbn. rewrite Nat.add_0_r. split; [reflexivity|exact Hk].
  - cbn [for_entries length].
    replace (start + idx + S (length chunk))
      with (start + (idx + 1) + length chunk) by lia.
    destruct (query bands rows (lsh st) _).
    + rewrite insert_fresh by exact Hk. cbn [bind].
      apply IH. cbn [lsh].
      replace (start + (idx + 1)) with (start + idx + 1) by lia.
      apply keys_below_snoc. exact Hk.
    + apply IH.
      apply (@keys_below_weaken (start + idx)); [lia|exact Hk].
Qed.

(** *** Splitting the corpus into batches *)

Lemma process_split_single (batches : list (list entry)) :
  forall offset st U D,
    process_split bands rows permuted_hashes batches offset st U D
    = for_entries bands rows permuted_hashes (concat batches) 0 offset st U D.
Proof.
  induction batches as [|chunk batches IH]; intros offset st U D;
    [reflexivity|].
  cbn [process_split concat]. unfold create_deduplicated_chunk.
  rewrite for_entries_app, (for_entries_acc chunk 0 offset st U D).
  destruct (for_entries bands rows permuted_hashes chunk 0 offset st [] [])
    as [[[u d] st']|err]; cbn [bind fst snd]; [|reflexivity].
  rewrite IH. apply for_entries_shift. lia.
Qed.

(** C5: a list of records processed as one batch, or cut into
    consecutive batches of any sizes that start at the offset of their
    first record and share the index, which is empty at first, gives the
    same unique list, the same duplicate list and the same index; and
    when every source can be encoded the run does give a result. *)
Theorem batch_split_invariance (batches : list (list entry)) :
  process_split bands rows permuted_hashes batches 0 empty_index [] []
  = create_deduplicated_chunk bands rows permuted_hashes
      (concat batches) 0 empty_index
  /\ (Forall (fun e => Aux.encodable (source e) = true) (concat batches) ->
      exists unique_entries duplicated_entries st,
        create_deduplicated_chunk bands rows permuted_hashes
          (concat batches) 0 empty_index
        = Ok (unique_entries, duplicated_entries, st)).
Proof.
  split; [apply process_split_single|]. intros _.
  destruct (@for_entries_fresh (concat batches) 0 0 empty_index [] [])
    as (u & d & st & H & _); [constructor|].
  exists u, d, st. exact H.
Qed.

(** *** The order of two similar records *)


Lemma query_single (key : nat) (m m' : MinHash) :
  query bands rows [(key, m)] m'
  = if same_bucket bands rows m m' then [key] else [].
Proof.
  unfold query. cbn [filter snd].
  destruct (same_bucket bands rows m m'); reflexivity.
Qed.


(** *** What a batch emits *)

Lemma emitted_from_emitted (e : entry) : emitted_from e (emitted e).
Proof.
  unfold emitted_from, emitted, output_entry. cbn [source target filename].
  repeat split.
  - destruct (filename e) as [v|]; cbn [truthy].
    + destruct (truthy v) eqn:Ht; intros H; [eauto|congruence].
    + congruence.
  - intros (v & -> & ->). discriminate.
  - intros v. destruct (filename e) as [v'|]; cbn [truthy].
    + destruct (truthy v'); congruence.
    + discriminate.
Qed.

Lemma for_entries_emitted (chunk : list entry) :
  forall idx start st U D u d st',
    for_entries bands rows permuted_hashes chunk idx start st U D
    = Ok (u, d, st') ->
    Permutation (U ++ D ++ map emitted chunk) (u ++ d).
Proof.
  induction chunk as [|e chunk IH]; intros idx start st U D u d st' H.
  - cbn in H. inversion H; subst. cbn [map]. rewrite app_nil_r. reflexivity.
  - cbn [for_entries] in H. fold (emitted e) in H. cbn [map].
    destruct (query bands rows (lsh st) _).
    + destruct (insert (lsh st) (start + idx) _); cbn [bind] in H;
        [|discriminate].
      apply IH in H. rewrite <- H, <- app_assoc.
      apply Permutation_app_head. cbn [app].
      symmetry. apply Permutation_middle.
    + apply IH in H. rewrite <- H, <- (app_assoc D). reflexivity.
Qed.

(** C10: every record of a batch gives exactly one emitted entry, in the
    unique or in the duplicate list; that entry has the record's source
    and target, and it has a [filename] if and only if the record has a
    [filename] key with a truthy value (an empty string or [None] gives
    no field).  With all keys of the index below [start_idx] and every
    source of the batch encodable, the batch does return. *)
Theorem emitted_entries_keep_record (chunk : list entry) (start_idx : nat)
    (st : index) :
  (keys_below start_idx (lsh st) ->
   Forall (fun e => Aux.encodable (source e) = true) chunk ->
   exists u d st',
     create_deduplicated_chunk bands rows permuted_hashes chunk start_idx st
     = Ok (u, d, st'))
  /\ (forall u d st',
         create_deduplicated_chunk bands rows permuted_hashes chunk start_idx st
         = Ok (u, d, st') ->
         exists outs,
           Forall2 emitted_from chunk outs /\ Permutation outs (u ++ d)).
Proof.
  split.
  - intros Hk _.
    destruct (@for_entries_fresh chunk 0 start_idx st [] [])
      as (u & d & st' & H & _).
    + rewrite Nat.add_0_r. exact Hk.
    + exists u, d, st'. exact H.
  - intros u d st' H. exists (map emitted chunk). split.
    + clear H. induction chunk as [|e chunk IH]; constructor;
        [apply emitted_from_emitted|exact IH].
    + apply for_entries_emitted in H. exact H.
Qed.

(** *** The batch loop *)

Lemma total_batches_spec (total_rows chunk_size : nat) :
  0 < chunk_size ->
  total_rows <= total_batches_of total_rows chunk_size * chunk_size
  /\ (forall p, p < total_batches_of total_rows chunk_size ->
                p * chunk_size < total_rows).
Proof.
  intros Hc. unfold total_batches_of.
  pose proof (Nat.div_mod total_rows chunk_size) as Hd.
  pose proof (Nat.mod_upper_bound total_rows chunk_size) as Hm.
  specialize (Hd ltac:(lia)). specialize (Hm ltac:(lia)).
  set (q := total_rows / chunk_size) in *.
  set (m := total_rows mod chunk_size) in *.
  destruct (Nat.ltb_spec 0 m) as [Hpos|Hzero]; split; nia.
Qed.

Lemma slice_last (json_data : list entry) (start_idx end_idx : nat) :
  length json_data <= end_idx ->
  slice json_data start_idx (Nat.min end_idx (length json_data))
  = skipn start_idx json_data.
Proof.
  intros H. unfold slice. rewrite Nat.min_r by exact H.
  apply firstn_all2. rewrite length_skipn. lia.
Qed.

Lemma slice_full (json_data : list entry) (start_idx chunk_size : nat) :
  start_idx + chunk_size <= length json_data ->
  skipn start_idx json_data
  = slice json_data start_idx
      (Nat.min (start_idx + chunk_size) (length json_data))
    ++ skipn (start_idx + chunk_size) json_data
  /\ length (slice json_data start_idx
               (Nat.min (start_idx + chunk_size) (length json_data)))
     = chunk_size.
Proof.
  intros H. unfold slice. rewrite Nat.min_l by exact H.
  replace (start_idx + chunk_size - start_idx) with chunk_size by lia.
  split.
  - rewrite <- (firstn_skipn chunk_size (skipn start_idx json_data)) at 1.
    f_equal. rewrite skipn_skipn. f_equal. lia.
  - rewrite length_firstn, length_skipn. lia.
Qed.

(** The batch loop, started at batch [p] with empty buffers or not, ends
    with the output files extended by the buffers and by what one batch
    made of all remaining records would give. *)
Lemma for_batches_spec (json_data : list entry) (chunk_size interval : nat) :
  0 < chunk_size -> 0 < interval ->
  forall n p st aU aD fU fD,
    n = total_batches_of (length json_data) chunk_size - p ->
    p < total_batches_of (length json_data) chunk_size ->
    for_batches bands rows permuted_hashes (seq p n) json_data chunk_size
      interval (length json_data)
      (total_batches_of (length json_data) chunk_size)
      {| run_index := st; deduplicated_entries := aU;
         duplicate_entries := aD;
         run_files := {| output_file := Some fU;
                         duplicates_output_file := Some fD |} |}
    = bind (for_entries bands rows permuted_hashes
              (skipn (p * chunk_size) json_data) 0 (p * chunk_size) st [] [])
        (fun res =>
           Ok {| run_index := snd res; deduplicated_entries := [];
                 duplicate_entries := [];
                 run_files :=
                   {| output_file := Some (fU ++ aU ++ fst (fst res));
                      duplicates_output_file :=
                        Some (fD ++ aD ++ snd (fst res)) |} |}).
Proof.
  intros Hc Hk.
  destruct (@total_batches_spec (length json_data) _ Hc) as [Hcover Hinside].
  set (tb := total_batches_of (length json_data) chunk_size) in *.
  induction n as [|n IH]; intros p st aU aD fU fD Hn Hp; [lia|].
  cbn [seq for_batches]. unfold create_deduplicated_chunk.
  cbn [run_index deduplicated_entries duplicate_entries run_files].
  destruct interval as [|k']; [lia|]. set (k := S k') in *.
  destruct (Nat.eq_dec n 0) as [Hlast|Hmore].
  - (* the last batch *)
    subst n. assert (Hp' : p = tb - 1) by lia.
    rewrite slice_last by nia.
    destruct (for_entries bands rows permuted_hashes
                (skipn (p * chunk_size) json_data) 0 (p * chunk_size) st [] [])
      as [[[u d] st']|err]; cbn [bind fst snd]; [|reflexivity].
    replace (p =? tb - 1) with true by (symmetry; apply Nat.eqb_eq; exact Hp').
    rewrite orb_true_r. cbn [seq for_batches run_files save_checkpoint
                              output_file duplicates_output_file].
    reflexivity.
  - (* a full batch followed by others *)
    assert (Hnext : S p < tb) by lia.
    pose proof (Hinside (S p) Hnext) as Hrows.
    assert (Hfull : p * chunk_size + chunk_size <= length json_data) by nia.
    destruct (@slice_full json_data _ _ Hfull) as [Hsplit Hlen].
    set (chunk := slice json_data (p * chunk_size)
                    (Nat.min (p * chunk_size + chunk_size) (length json_data)))
      in *.
    rewrite Hsplit, for_entries_app.
    destruct (for_entries bands rows permuted_hashes chunk 0
                (p * chunk_size) st [] [])
      as [[[u1 d1] st1]|err]; cbn [bind fst snd]; [|reflexivity].
    rewrite (@for_entries_shift _ (0 + length chunk) (p * chunk_size)
               0 (S p * chunk_size)) by (rewrite Hlen; lia).
    rewrite for_entries_acc.
    replace (p * chunk_size + chunk_size) with (S p * chunk_size) by lia.
    destruct (((p + 1) mod k =? 0) || (p =? tb - 1));
      cbn [run_files save_checkpoint output_file duplicates_output_file];
      rewrite (IH (S p)) by lia;
      destruct (for_entries bands rows permuted_hashes
                  (skipn (S p * chunk_size) json_data) 0 (S p * chunk_size)
                  st1 [] [])
        as [[[u2 d2] st2]|err]; cbn [bind fst snd]; try reflexivity;
      rewrite ?app_nil_r, <- ?app_assoc; cbn [app]; reflexivity.
Qed.

(** *** Resuming from the output files *)

Lemma minhashes_set_fresh (d : list (nat * MinHash)) (key : nat) (m : MinHash) :
  keys_below key d -> minhashes_set d key m = d ++ [(key, m)].
Proof.
  induction 1 as [|[k x] d Hlt _ IH]; [reflexivity|].
  cbn in Hlt. cbn [minhashes_set app].
  destruct (Nat.eqb_spec k key); [lia|]. rewrite IH. reflexivity.
Qed.

(** The fingerprints of the persisted unique entries, under the
    identifiers [idx, idx + 1, ...] in file order. *)
Lemma replay_fresh (dedup_entries : list entry) :
  forall idx st,
    keys_below idx (lsh st) -> keys_below idx (minhashes st) ->
    replay permuted_hashes dedup_entries idx st
    = Ok {| lsh := lsh st
                   ++ combine (seq idx (length dedup_entries))
                        (map (fun e => fingerprint permuted_hashes (source e))
                           dedup_entries);
            minhashes := minhashes st
                         ++ combine (seq idx (length dedup_entries))
                              (map (fun e => fingerprint permuted_hashes (source e))
                                 dedup_entries) |}.
Proof.
  induction dedup_entries as [|e l IH]; intros idx st Hl Hm.
  - cbn. rewrite !app_nil_r. destruct st; reflexivity.
  - cbn [replay length seq map combine].
    rewrite insert_fresh by exact Hl. cbn [bind].
    rewrite minhashes_set_fresh by exact Hm.
    rewrite IH by (cbn [lsh minhashes]; apply keys_below_snoc; assumption).
    cbn [lsh minhashes]. rewrite <- !app_assoc, Nat.add_1_r. reflexivity.
Qed.

(** The batch loop entered at batch [pb] with an index [st] and the two
    output files in place. *)
Lemma batch_loop_from (json_data : list entry) (chunk_size interval : nat)
    (pb : nat) (st : index) (U D : list entry) :
  0 < chunk_size -> 0 < interval ->
  bind (for_batches bands rows permuted_hashes
          (seq pb (total_batches_of (length json_data) chunk_size - pb))
          json_data chunk_size interval (length json_data)
          (total_batches_of (length json_data) chunk_size)
          {| run_index := st; deduplicated_entries := [];
             duplicate_entries := [];
             run_files := {| output_file := Some U;
                             duplicates_output_file := Some D |} |})
    (fun r => Ok (run_files r))
  = bind (create_deduplicated_chunk bands rows permuted_hashes
            (skipn (pb * chunk_size) json_data) (pb * chunk_size) st)
      (fun res =>
         Ok {| output_file := Some (U ++ fst (fst res));
               duplicates_output_file := Some (D ++ snd (fst res)) |}).
Proof.
  intros Hc Hk. unfold create_deduplicated_chunk.
  destruct (Nat.lt_ge_cases pb (total_batches_of (length json_data) chunk_size))
    as [Hlt|Hge].
  - rewrite (@for_batches_spec json_data chunk_size interval Hc Hk _ pb st
               [] [] U D eq_refl Hlt).
    destruct (for_entries bands rows permuted_hashes _ 0 _ st [] [])
      as [[[u d] st']|err]; reflexivity.
  - destruct (@total_batches_spec (length json_data) _ Hc) as [Hcover _].
    replace (total_batches_of (length json_data) chunk_size - pb) with 0 by lia.
    rewrite skipn_all2 by nia.
    cbn. rewrite !app_nil_r. reflexivity.
Qed.

(** The resume branch never fails: the replayed identifiers are all
    different. *)
Lemma resume_both_files (U D : list entry) (chunk_size : nat) :
  resume permuted_hashes
    {| output_file := Some U; duplicates_output_file := Some D |} chunk_size
  = Ok ((length U + length D) / chunk_size,
        {| lsh := combine (seq 0 (length U))
                    (map (fun e => fingerprint permuted_hashes (source e)) U);
           minhashes := combine (seq 0 (length U))
                          (map (fun e => fingerprint permuted_hashes (source e)) U) |},
        {| output_file := Some U; duplicates_output_file := Some D |}).
Proof.
  unfold resume. cbn [output_file duplicates_output_file].
  rewrite replay_fresh by constructor. reflexivity.
Qed.

Lemma resumed_run (json_data U D : list entry)
    (chunk_size checkpoint_interval : nat) :
  0 < chunk_size -> 0 < checkpoint_interval ->
  process_in_batches bands rows permuted_hashes json_data
    {| output_file := Some U; duplicates_output_file := Some D |}
    chunk_size checkpoint_interval
  = bind (create_deduplicated_chunk bands rows permuted_hashes
            (skipn ((length U + length D) / chunk_size * chunk_size) json_data)
            ((length U + length D) / chunk_size * chunk_size)
            {| lsh := combine (seq 0 (length U))
                        (map (fun e => fingerprint permuted_hashes (source e)) U);
               minhashes := combine (seq 0 (length U))
                              (map (fun e => fingerprint permuted_hashes (source e)) U) |})
      (fun res =>
         Ok {| output_file := Some (U ++ fst (fst res));
               duplicates_output_file := Some (D ++ snd (fst res)) |}).
Proof.
  intros Hc Hk.
  unfold process_in_batches. destruct chunk_size as [|c']; [lia|].
  rewrite resume_both_files. cbn [bind].
  apply batch_loop_from; assumption.
Qed.

(** C8: with both output files present, holding [U] unique and [D]
    duplicate entries, the resume branch takes [(U + D) // chunk_size]
    batches as processed and rebuilds the index from the fingerprints of
    the persisted unique entries under the identifiers [0 .. U-1] in file
    order; the run then appends to the two files what the records from
    position [processed_batches * chunk_size] on give, identifiers
    starting at that position, and reads no earlier record. *)
Theorem resume_reconstruction (json_data U D : list entry)
    (chunk_size checkpoint_interval : nat) :
  0 < chunk_size -> 0 < checkpoint_interval ->
  let fs := {| output_file := Some U; duplicates_output_file := Some D |} in
  let processed_batches := (length U + length D) / chunk_size in
  let replayed :=
    combine (seq 0 (length U))
      (map (fun e => fingerprint permuted_hashes (source e)) U) in
  let st := {| lsh := replayed; minhashes := replayed |} in
  resume permuted_hashes fs chunk_size = Ok (processed_batches, st, fs)
  /\ process_in_batches bands rows permuted_hashes json_data fs
       chunk_size checkpoint_interval
     = bind (create_deduplicated_chunk bands rows permuted_hashes
               (skipn (processed_batches * chunk_size) json_data)
               (processed_batches * chunk_size) st)
         (fun res =>
            Ok {| output_file := Some (U ++ fst (fst res));
                  duplicates_output_file := Some (D ++ snd (fst res)) |}).
Proof.
  intros Hc Hk fs processed_batches replayed st. split.
  - apply resume_both_files.
  - apply resumed_run; assumption.
Qed.

(** A run resumed from files that hold a whole number of batches of the
    input completes with as many persisted entries as records. *)
Lemma aligned_resume_conserves_records (json_data U D : list entry)
    (chunk_size checkpoint_interval : nat) :
  0 < chunk_size -> 0 < checkpoint_interval ->
  (length U + length D) mod chunk_size = 0 ->
  length U + length D <= length json_data ->
  exists fs',
    process_in_batches bands rows permuted_hashes json_data
      {| output_file := Some U; duplicates_output_file := Some D |}
      chunk_size checkpoint_interval = Ok fs'
    /\ persisted_count fs' = length json_data.
Proof.
  intros Hc Hk Hal Hle. rewrite resumed_run by assumption.
  pose proof (Nat.div_mod (length U + length D) chunk_size ltac:(lia)) as Hd.
  set (pb := (length U + length D) / chunk_size) in *.
  assert (Hpb : pb * chunk_size = length U + length D) by nia.
  unfold create_deduplicated_chunk.
  destruct (@for_entries_fresh (skipn (pb * chunk_size) json_data) 0
              (pb * chunk_size)
              {| lsh := combine (seq 0 (length U))
                          (map (fun e => fingerprint permuted_hashes (source e)) U);
                 minhashes := combine (seq 0 (length U))
                                (map (fun e => fingerprint permuted_hashes (source e)) U) |}
              [] [])
    as (u & d & st & H & _).
  { cbn [lsh]. apply Forall_forall. intros [k m] Hin.
    apply in_combine_l in Hin. apply in_seq in Hin. cbn. lia. }
  rewrite H. cbn [bind fst snd]. eexists. split; [reflexivity|].
  apply for_entries_count in H. rewrite length_skipn in H.
  cbn [persisted_count output_file duplicates_output_file].
  rewrite !length_app. cbn [length] in H. lia.
Qed.

(** A run that does not find both output files starts them empty and
    leaves in them what one batch made of the whole input gives. *)
Lemma fresh_run (json_data : list entry) (fs : files)
    (chunk_size checkpoint_interval : nat) :
  0 < chunk_size -> 0 < checkpoint_interval ->
  output_file fs = None \/ duplicates_output_file fs = None ->
  process_in_batches bands rows permuted_hashes json_data fs
    chunk_size checkpoint_interval
  = bind (create_deduplicated_chunk bands rows permuted_hashes
            json_data 0 empty_index)
      (fun res =>
         Ok {| output_file := Some (fst (fst res));
               duplicates_output_file := Some (snd (fst res)) |}).
Proof.
  intros Hc Hk Hmissing.
  unfold process_in_batches. destruct chunk_size as [|c']; [lia|].
  assert (Hres : resume permuted_hashes fs (S c')
                 = Ok (0, empty_index,
                       {| output_file := Some [];
                          duplicates_output_file := Some [] |})).
  { unfold resume, save_checkpoint.
    destruct Hmissing as [-> | H].
    - destruct (duplicates_output_file fs); reflexivity.
    - rewrite H. destruct (output_file fs); reflexivity. }
  rewrite Hres. cbn [bind].
  rewrite (@batch_loop_from json_data (S c') checkpoint_interval 0
             empty_index [] [] Hc Hk).
  reflexivity.
Qed.

(** A run started without output files completes, and its two files
    hold as many entries as the input has records. *)
Lemma fresh_run_conserves_records (json_data : list entry) (fs : files)
    (chunk_size checkpoint_interval : nat) :
  0 < chunk_size -> 0 < checkpoint_interval ->
  output_file fs = None \/ duplicates_output_file fs = None ->
  exists fs',
    process_in_batches bands rows permuted_hashes json_data fs
      chunk_size checkpoint_interval = Ok fs'
    /\ persisted_count fs' = length json_data.
Proof.
  intros Hc Hk Hmissing. rewrite fresh_run by assumption.
  unfold create_deduplicated_chunk.
  destruct (@for_entries_fresh json_data 0 0 empty_index [] [])
    as (u & d & st & H & _); [constructor|].
  rewrite H. cbn [bind fst snd]. eexists. split; [reflexivity|].
  apply for_entries_count in H. cbn in H |- *. lia.
Qed.

(** *** Running again on the files of a completed run *)

Lemma query_app (l l' : MinHashLSH) (m : MinHash) :
  query bands rows (l ++ l') m = query bands rows l m ++ query bands rows l' m.
Proof. unfold query. rewrite filter_app, map_app. reflexivity. Qed.

Lemma query_same_fingerprints (l l' : MinHashLSH) (m : MinHash) :
  map snd l = map snd l' ->
  query bands rows l m = [] -> query bands rows l' m = [].
Proof.
  intros Heq H. rewrite query_nil_iff in H |- *.
  intros km' Hin.
  assert (Hs : In (snd km') (map snd l)).
  { rewrite Heq. apply in_map. exact Hin. }
  apply in_map_iff in Hs. destruct Hs as (km & Hsnd & Hkm).
  rewrite <- Hsnd. apply H. exact Hkm.
Qed.

(** The fingerprints held by the index are those of the unique entries. *)
Lemma for_entries_fingerprints (chunk : list entry) :
  forall idx start st U D u d st' base,
    map snd (lsh st)
    = base ++ map (fun e => fingerprint permuted_hashes (source e)) U ->
    for_entries bands rows permuted_hashes chunk idx start st U D
    = Ok (u, d, st') ->
    map snd (lsh st')
    = base ++ map (fun e => fingerprint permuted_hashes (source e)) u.
Proof.
  induction chunk as [|e chunk IH]; intros idx start st U D u d st' base Hb H.
  - cbn in H. inversion H; subst. exact Hb.
  - cbn [for_entries] in H.
    destruct (query bands rows (lsh st) _).
    + unfold insert in H.
      destruct (existsb _ _); cbn [bind] in H; [discriminate|].
      apply (IH _ _ _ _ _ _ _ _ base) in H; [exact H|].
      cbn [lsh]. rewrite !map_app, Hb, <- app_assoc. reflexivity.
    + apply (IH _ _ _ _ _ _ _ _ base) in H; [exact H|exact Hb].
Qed.

(** After a batch, the index has a similar fingerprint for every record
    of the batch, and for every record it had one for. *)
Lemma for_entries_covers (chunk : list entry) :
  1 <= bands ->
  forall idx start st U D u d st',
    for_entries bands rows permuted_hashes chunk idx start st U D
    = Ok (u, d, st') ->
    (forall m, query bands rows (lsh st) m <> [] ->
               query bands rows (lsh st') m <> [])
    /\ Forall (fun e => query bands rows (lsh st')
                          (fingerprint permuted_hashes (source e)) <> [])
         chunk.
Proof.
  intros Hb.
  induction chunk as [|e chunk IH]; intros idx start st U D u d st' H.
  - cbn in H. inversion H; subst. split; [auto|constructor].
  - cbn [for_entries] in H.
    destruct (query bands rows (lsh st) _) eqn:Hq.
    + unfold insert in H.
      destruct (existsb _ _); cbn [bind] in H; [discriminate|].
      apply IH in H. cbn [lsh] in H. destruct H as [Hmono Hall].
      assert (Hgrow : forall m, query bands rows (lsh st) m <> [] ->
                                query bands rows (lsh st') m <> []).
      { intros m Hm. apply Hmono. rewrite query_app.
        destruct (query bands rows (lsh st) m); [congruence|discriminate]. }
      split; [exact Hgrow|]. constructor; [|exact Hall].
      apply Hmono. rewrite query_app, Hq, query_single.
      rewrite same_bucket_refl by exact Hb. discriminate.
    + apply IH in H. destruct H as [Hmono Hall].
      split; [exact Hmono|]. constructor; [|exact Hall].
      apply Hmono. rewrite Hq. discriminate.
Qed.

(** Records that all have a similar fingerprint in the index are all
    duplicates, and the index is left as it is. *)
Lemma for_entries_all_duplicates (chunk : list entry) :
  forall idx start st U D,
    Forall (fun e => query bands rows (lsh st)
                       (fingerprint permuted_hashes (source e)) <> [])
      chunk ->
    for_entries bands rows permuted_hashes chunk idx start st U D
    = Ok (U, D ++ map emitted chunk, st).
Proof.
  induction chunk as [|e chunk IH]; intros idx start st U D Hall.
  - cbn. rewrite app_nil_r. reflexivity.
  - inversion Hall as [|? ? He Hrest]; subst.
    cbn [for_entries map]. fold (emitted e).
    destruct (query bands rows (lsh st) _); [congruence|].
    rewrite IH by exact Hrest. rewrite <- app_assoc. reflexivity.
Qed.

Lemma map_snd_combine (keys : list nat) (l : list MinHash) :
  length keys = length l -> map snd (combine keys l) = l.
Proof.
  revert l. induction keys as [|k keys IH]; intros [|x l] H;
    try discriminate; [reflexivity|].
  cbn [combine map snd]. f_equal. apply IH. cbn in H. lia.
Qed.

Lemma Forall_skipn_entries (P : entry -> Prop) (n : nat) (l : list entry) :
  Forall P l -> Forall P (skipn n l).
Proof.
  intros H. rewrite <- (firstn_skipn n l) in H.
  apply Forall_app in H. apply H.
Qed.

(** C2, the defect: when the number of records is not a multiple of the
    batch size, a run started without output files completes with as
    many persisted entries as records, and a second run on the same
    input, which finds these files, completes as well but takes the last,
    partial batch as not processed and appends its records once more to
    the duplicate file: the two files then hold
    [N + N mod chunk_size] entries. *)
Theorem rerun_counts_last_batch_twice (json_data : list entry)
    (chunk_size checkpoint_interval : nat) :
  0 < chunk_size -> 0 < checkpoint_interval -> 1 <= bands ->
  length json_data mod chunk_size <> 0 ->
  exists fs1 fs2,
    process_in_batches bands rows permuted_hashes json_data
      {| output_file := None; duplicates_output_file := None |}
      chunk_size checkpoint_interval = Ok fs1
    /\ persisted_count fs1 = length json_data
    /\ process_in_batches bands rows permuted_hashes json_data fs1
         chunk_size checkpoint_interval = Ok fs2
    /\ persisted_count fs2
       = length json_data + length json_data mod chunk_size
    /\ persisted_count fs2 <> length json_data.
Proof.
  intros Hc Hk Hb Hmod.
  rewrite (@fresh_run json_data _ chunk_size checkpoint_interval Hc Hk)
    by (left; reflexivity).
  unfold create_deduplicated_chunk at 1.
  destruct (@for_entries_fresh json_data 0 0 empty_index [] [])
    as (u & d & st & Hrun & _); [constructor|].
  rewrite Hrun. cbn [bind fst snd].
  pose proof (@for_entries_count json_data 0 0 empty_index [] [] u d st Hrun)
    as Hcount.
  cbn [length] in Hcount. rewrite !Nat.add_0_l in Hcount.
  pose proof (@for_entries_fingerprints json_data 0 0 empty_index [] []
                u d st [] eq_refl Hrun) as Hfp.
  destruct (@for_entries_covers json_data Hb 0 0 empty_index [] [] u d st Hrun)
    as [_ Hcov].
  pose proof (@resumed_run json_data u d chunk_size checkpoint_interval
                Hc Hk) as Hrerun.
  set (replayed := combine (seq 0 (length u))
                     (map (fun e => fingerprint permuted_hashes (source e)) u))
    in *.
  set (pb := (length u + length d) / chunk_size) in *.
  assert (Hdup : Forall (fun e => query bands rows replayed
                                    (fingerprint permuted_hashes (source e))
                                  <> [])
                   (skipn (pb * chunk_size) json_data)).
  { apply Forall_skipn_entries.
    eapply Forall_impl; [|exact Hcov]. cbn beta. intros e He Hnil.
    apply He.
    apply (@query_same_fingerprints replayed (lsh st)); [|exact Hnil].
    unfold replayed. rewrite Hfp. cbn [app].
    apply map_snd_combine. rewrite length_seq, length_map. reflexivity. }
  unfold create_deduplicated_chunk in Hrerun.
  rewrite for_entries_all_duplicates in Hrerun by exact Hdup.
  cbn [bind fst snd app] in Hrerun.
  eexists. eexists. split; [reflexivity|].
  split; [cbn; lia|].
  split; [exact Hrerun|].
  assert (Hlen : length (skipn (pb * chunk_size) json_data)
                 = length json_data mod chunk_size).
  { rewrite length_skipn. unfold pb. rewrite Hcount.
    pose proof (Nat.div_mod (length json_data) chunk_size ltac:(lia)). nia. }
  cbn [persisted_count output_file duplicates_output_file].
  rewrite app_nil_r, length_app, length_map, Hlen. lia.
Qed.

End Datasketch.

Lemma batch_split_invariance_sample :
  process_split Samples.sample_bands Samples.sample_rows Samples.sample_hashes
    [[Samples.record_a; Samples.record_b]; []; [Samples.record_c; Samples.record_a]]
    0 empty_index [] []
  = Ok ([emitted Samples.record_a; emitted Samples.record_c],
        [emitted Samples.record_b; emitted Samples.record_a],
        {| lsh := [(0, repeat 2%N 128); (2, repeat 3%N 128)];
           minhashes := [(0, repeat 2%N 128); (2, repeat 3%N 128)] |}).
Proof. vm_compute. reflexivity. Qed.

Lemma batch_split_invariance_witness :
  exists unique_entries duplicated_entries st,
    create_deduplicated_chunk Samples.sample_bands Samples.sample_rows
      Samples.sample_hashes
      (concat [[Samples.record_a; Samples.record_b]; [];
               [Samples.record_c; Samples.record_a]]) 0 empty_index
    = Ok (unique_entries, duplicated_entries, st).
Proof.
  apply (proj2 (@batch_split_invariance Samples.sample_bands
                  Samples.sample_rows Samples.sample_hashes
                  [[Samples.record_a; Samples.record_b]; [];
                   [Samples.record_c; Samples.record_a]])).
  repeat constructor.
Defined.


Example similar_above_threshold_sample :
  Aux.equal_positions
    (fingerprint Samples.banded_hashes (source Samples.record_p))
    (fingerprint Samples.banded_hashes (source Samples.record_q)) = 122
  /\ same_bucket 5 25
       (fingerprint Samples.banded_hashes (source Samples.record_p))
       (fingerprint Samples.banded_hashes (source Samples.record_q)) = false
  /\ exists st,
       create_deduplicated_chunk 5 25 Samples.banded_hashes
         [Samples.record_p; Samples.record_q] 0 empty_index
       = Ok ([emitted Samples.record_p; emitted Samples.record_q], [], st).
Proof.
  split; [vm_compute; reflexivity|].
  split; [vm_compute; reflexivity|].
  eexists. vm_compute. reflexivity.
Qed.


Lemma emitted_entries_keep_record_witness :
  (exists u d st',
      create_deduplicated_chunk Samples.sample_bands Samples.sample_rows
        Samples.sample_hashes
        [Samples.record_a; Samples.record_b; Samples.record_c] 0 empty_index
      = Ok (u, d, st'))
  /\ exists outs,
       Forall2 emitted_from
         [Samples.record_a; Samples.record_b; Samples.record_c] outs
       /\ Permutation outs
            ([emitted Samples.record_a; emitted Samples.record_c]
             ++ [emitted Samples.record_b]).
Proof.
  destruct (@emitted_entries_keep_record Samples.sample_bands
              Samples.sample_rows Samples.sample_hashes
              [Samples.record_a; Samples.record_b; Samples.record_c]
              0 empty_index) as [Hreturns Hentries].
  split.
  - apply Hreturns; [constructor|repeat constructor].
  - apply (Hentries _ _
             {| lsh := [(0, repeat 2%N 128); (2, repeat 3%N 128)];
                minhashes := [(0, repeat 2%N 128); (2, repeat 3%N 128)] |}).
    vm_compute. reflexivity.
Defined.

Example emitted_filename_cases :
  filename (emitted Samples.record_a) = Some (PyStr (lit "f.txt"))
  /\ filename (emitted Samples.record_b) = None
  /\ filename (emitted Samples.record_c) = None
  /\ filename (emitted {| source := []; target := [];
                          filename := Some PyNone |}) = None.
Proof. repeat split. Qed.

Lemma resume_reconstruction_witness :
  resume Samples.sample_hashes
    {| output_file := Some [emitted Samples.record_a];
       duplicates_output_file := Some [emitted Samples.record_b] |} 2
  = Ok (1, {| lsh := [(0, repeat 2%N 128)];
              minhashes := [(0, repeat 2%N 128)] |},
        {| output_file := Some [emitted Samples.record_a];
           duplicates_output_file := Some [emitted Samples.record_b] |})
  /\ process_in_batches Samples.sample_bands Samples.sample_rows
       Samples.sample_hashes
       [Samples.record_a; Samples.record_b; Samples.record_c; Samples.record_a]
       {| output_file := Some [emitted Samples.record_a];
          duplicates_output_file := Some [emitted Samples.record_b] |} 2 5
     = Ok {| output_file :=
               Some [emitted Samples.record_a; emitted Samples.record_c];
             duplicates_output_file :=
               Some [emitted Samples.record_b; emitted Samples.record_a] |}.
Proof.
  pose proof (@resume_reconstruction Samples.sample_bands Samples.sample_rows
                Samples.sample_hashes
                [Samples.record_a; Samples.record_b; Samples.record_c;
                 Samples.record_a]
                [emitted Samples.record_a] [emitted Samples.record_b] 2 5
                ltac:(lia) ltac:(lia)) as H.
  cbv zeta in H. destruct H as [H1 H2]. split.
  - rewrite H1. vm_compute. reflexivity.
  - rewrite H2. vm_compute. reflexivity.
Defined.

Lemma rerun_counts_last_batch_twice_witness :
  exists fs1 fs2,
    process_in_batches Samples.sample_bands Samples.sample_rows
      Samples.sample_hashes
      [Samples.record_a; Samples.record_b; Samples.record_c]
      {| output_file := None; duplicates_output_file := None |} 2 5 = Ok fs1
    /\ persisted_count fs1 = 3
    /\ process_in_batches Samples.sample_bands Samples.sample_rows
         Samples.sample_hashes
         [Samples.record_a; Samples.record_b; Samples.record_c] fs1 2 5
       = Ok fs2
    /\ persisted_count fs2 = 3 + 3 mod 2
    /\ persisted_count fs2 <> 3.
Proof.
  apply (@rerun_counts_last_batch_twice Samples.sample_bands
           Samples.sample_rows Samples.sample_hashes
           [Samples.record_a; Samples.record_b; Samples.record_c] 2 5).
  - lia.
  - lia.
  - unfold Samples.sample_bands. lia.
  - cbn. discriminate.
Defined.

(** The same two runs, evaluated: three records, batches of two. *)
Example rerun_sample :
  process_in_batches Samples.sample_bands Samples.sample_rows
    Samples.sample_hashes
    [Samples.record_a; Samples.record_b; Samples.record_c]
    {| output_file := None; duplicates_output_file := None |} 2 5
  = Ok {| output_file :=
            Some [emitted Samples.record_a; emitted Samples.record_c];
          duplicates_output_file := Some [emitted Samples.record_b] |}
  /\ process_in_batches Samples.sample_bands Samples.sample_rows
       Samples.sample_hashes
       [Samples.record_a; Samples.record_b; Samples.record_c]
       {| output_file :=
            Some [emitted Samples.record_a; emitted Samples.record_c];
          duplicates_output_file := Some [emitted Samples.record_b] |} 2 5
     = Ok {| output_file :=
               Some [emitted Samples.record_a; emitted Samples.record_c];
             duplicates_output_file :=
               Some [emitted Samples.record_b; emitted Samples.record_c] |}.
Proof. split; vm_compute; reflexivity. Qed.

End DedupFacts.

(** * Further properties of the validator *)

Module ValidationMore.

Import Validation ValidationFacts Aux.

Lemma mismatches_nonneg (l : list (char * char)) :
  (0 <= fold_right Z.add 0
          (map (fun '(c1, c2) => if N.eqb c1 c2 then 0 else 1) l))%Z.
Proof.
  induction l as [|[c1 c2] l IH]; cbn [map fold_right]; [lia|].
  destruct (N.eqb c1 c2); lia.
Qed.

Lemma mismatches_bound (l : list (char * char)) :
  (fold_right Z.add 0
     (map (fun '(c1, c2) => if N.eqb c1 c2 then 0 else 1) l)
   <= Z.of_nat (length l))%Z.
Proof.
  induction l as [|[c1 c2] l IH]; cbn [map fold_right length]; [lia|].
  destruct (N.eqb c1 c2); lia.
Qed.

Lemma mismatches_zero (a : str) :
  forall b, length a = length b ->
    fold_right Z.add 0%Z
      (map (fun '(c1, c2) => if N.eqb c1 c2 then 0%Z else 1%Z) (combine a b))
    = 0%Z ->
    a = b.
Proof.
  induction a as [|x a IH]; intros [|y b] Hlen Hsum; try discriminate;
    [reflexivity|].
  cbn [combine map fold_right] in Hsum.
  pose proof (mismatches_nonneg (combine a b)) as Hpos.
  destruct (N.eqb_spec x y) as [->|Hne]; [|lia].
  f_equal. apply IH; [cbn in Hlen; lia|lia].
Qed.

(** X1: the distance is [0] exactly for two equal strings. *)
Theorem manhattan_distance_zero_iff (str1 str2 : str) :
  manhattan_distance str1 str2 = 0%Z <-> str1 = str2.
Proof.
  split.
  - unfold manhattan_distance.
    destruct (Nat.eqb_spec (length str1) (length str2)) as [Hlen|Hlen];
      cbn [negb]; [|discriminate].
    apply mismatches_zero. exact Hlen.
  - intros ->. apply manhattan_distance_refl.
Qed.

(** X2: the distance is [-1] exactly when the lengths differ, and
    otherwise lies between [0] and the common length; it does not depend
    on the order of its arguments. *)
Theorem manhattan_distance_range (str1 str2 : str) :
  (manhattan_distance str1 str2 = (-1)%Z <-> length str1 <> length str2)
  /\ (length str1 = length str2 ->
      (0 <= manhattan_distance str1 str2 <= Z.of_nat (length str1))%Z)
  /\ manhattan_distance str1 str2 = manhattan_distance str2 str1.
Proof.
  unfold manhattan_distance.
  pose proof (mismatches_nonneg (combine str1 str2)) as Hpos.
  pose proof (mismatches_bound (combine str1 str2)) as Hle.
  rewrite length_combine in Hle.
  repeat split.
  - destruct (Nat.eqb_spec (length str1) (length str2)); cbn [negb]; intros H;
      [lia|assumption].
  - intros H. apply Nat.eqb_neq in H. rewrite H. reflexivity.
  - rewrite H, Nat.eqb_refl. cbn [negb]. exact Hpos.
  - rewrite H, Nat.eqb_refl. cbn [negb]. lia.
  - rewrite (Nat.eqb_sym (length str2)).
    destruct (length str1 =? length str2); cbn [negb]; [|reflexivity].
    clear Hpos Hle. revert str2.
    induction str1 as [|x a IH]; intros [|y b]; try reflexivity.
    cbn [combine map fold_right]. rewrite IH, (N.eqb_sym y x). reflexivity.
Qed.

(** X3: both loops of the validator end within [len(target_no_spaces)]
    and [len(source_no_spaces)] iterations, so that the validator answers
    [True] or [False] on every pair of strings. *)
Theorem validator_always_answers (source target : str) :
  validate source target = Some true \/ validate source target = Some false.
Proof.
  destruct (validate_total source target) as [[|] H]; [left|right]; exact H.
Qed.

(** X4: the verdict is decided by the first loop alone: the validator
    answers [True] exactly when that loop ends with [src_idx] at the end
    of the source, whatever the second loop and the distance do. *)
Theorem verdict_of_first_loop (source target : str) :
  validate source target = Some true
  <-> exists reconstructed_target,
        while_target (length (no_spaces target))
          (no_spaces source) (no_spaces target) 0 0 []
        = Done (length (no_spaces source)) reconstructed_target.
Proof.
  rewrite validate_walk.
  pose proof (@while_target_walk (length (no_spaces target))
                (no_spaces source) (no_spaces target) 0 0 (Nat.le_0_l _)) as H.
  cbn [skipn firstn] in H.
  destruct (walk _ (no_spaces source) (no_spaces target)) as [[rest|]|].
  - destruct H as (s' & Hrun & Hs' & Hrest). rewrite Hrun. split.
    + intros Hv. destruct rest as [|x rest]; [|discriminate].
      assert (s' = length (no_spaces source)) as ->.
      { apply (f_equal (@length _)) in Hrest.
        rewrite length_skipn in Hrest. cbn in Hrest. lia. }
      eauto.
    + intros [rec Hrec]. inversion Hrec as [[Hs Hr]].
      rewrite Hs, skipn_all in Hrest. subst rest. reflexivity.
  - rewrite H. split; [discriminate|intros [? ?]; discriminate].
  - rewrite H. split; [discriminate|intros [? ?]; discriminate].
Qed.

(** X5: whenever the first loop runs to its end, the reconstructed
    target is the part of the space-free source before [src_idx]. *)
Theorem reconstruction_is_source_prefix (fuel : nat) (source target : str)
    (src_idx : nat) (reconstructed_target : str) :
  while_target fuel source target 0 0 [] = Done src_idx reconstructed_target ->
  src_idx <= length source /\ reconstructed_target = firstn src_idx source.
Proof.
  intros Hrun.
  pose proof (@while_target_walk fuel source target 0 0 (Nat.le_0_l _)) as H.
  cbn [skipn firstn] in H.
  destruct (walk fuel source target) as [[rest|]|].
  - destruct H as (s' & Hrun' & Hs' & _). rewrite Hrun in Hrun'.
    inversion Hrun'; subst. split; [assumption|reflexivity].
  - congruence.
  - congruence.
Qed.

Lemma reconstruction_is_source_prefix_witness :
  3 <= length (lit "abc" ++ [newline])
  /\ lit "abc" = firstn 3 (lit "abc" ++ [newline]).
Proof.
  apply (@reconstruction_is_source_prefix 3 (lit "abc" ++ [newline])
           (lit "abc") 3 (lit "abc")).
  reflexivity.
Defined.

Lemma walk_reads_no_more_than_target fuel :
  forall src tgt rest,
    walk fuel src tgt = Some (Some rest) ->
    length src <= length rest + length tgt.
Proof.
  induction fuel as [|fuel IH]; intros src tgt rest H.
  - destruct tgt; [|discriminate]. inversion H; subst. lia.
  - destruct tgt as [|c tgt']; [inversion H; subst; lia|].
    cbn [walk] in H.
    pose proof (length_skipn (length sent_br) (c :: tgt')) as Hl.
    pose proof sent_br_length as Hsb. cbn [length] in Hl |- *.
    destruct (is_prefix sent_br (c :: tgt')).
    + destruct src as [|d src'].
      * apply IH in H. cbn [length] in *. lia.
      * destruct (N.eqb d newline); apply IH in H; cbn [length] in *; lia.
    + destruct src as [|d src']; [discriminate|].
      destruct (N.eqb c d); [|discriminate].
      apply IH in H. cbn [length]. lia.
Qed.

(** X6: a target that, spaces removed, is shorter than the space-free
    source is always rejected. *)
Theorem shorter_target_rejected (source target : str) :
  length (no_spaces target) < length (no_spaces source) ->
  validate source target = Some false.
Proof.
  intros Hlen.
  destruct (validate_total source target) as [[|] H]; [|exact H].
  exfalso. rewrite validate_walk in H.
  destruct (walk _ (no_spaces source) (no_spaces target))
    as [[[|x rest]|]|] eqn:Hw; try discriminate.
  apply walk_reads_no_more_than_target in Hw. cbn [length] in Hw. lia.
Qed.

Lemma shorter_target_rejected_witness :
  validate (lit "a b c") (lit "ab") = Some false.
Proof.
  apply (@shorter_target_rejected (lit "a b c") (lit "ab")).
  cbn. lia.
Defined.

Lemma without_newlines_cons (c : char) (s : str) :
  replace newline [] (c :: s)
  = (if N.eqb c newline then [] else [c]) ++ replace newline [] s.
Proof. reflexivity. Qed.

Lemma walk_keeps_text fuel :
  forall src tgt rest,
    walk fuel src tgt = Some (Some rest) ->
    replace newline [] src
    = replace newline [] (without_breaks fuel tgt) ++ replace newline [] rest.
Proof.
  induction fuel as [|fuel IH]; intros src tgt rest H.
  - destruct tgt; [|discriminate]. inversion H; subst. reflexivity.
  - destruct tgt as [|c tgt']; [inversion H; subst; reflexivity|].
    cbn [walk without_breaks] in H |- *.
    destruct (is_prefix sent_br (c :: tgt')).
    + destruct src as [|d src']; [apply IH; exact H|].
      destruct (N.eqb d newline) eqn:Hd; [|apply IH; exact H].
      rewrite without_newlines_cons, Hd. cbn [app]. apply IH. exact H.
    + destruct src as [|d src']; [discriminate|].
      destruct (N.eqb_spec c d) as [->|]; [|discriminate].
      rewrite !without_newlines_cons, <- app_assoc. f_equal.
      apply IH. exact H.
Qed.

(** X7: in a pair the validator accepts, source and target carry the
    same text: the space-free source without its newlines equals the
    space-free target without the [<sent_br>] tokens the loop skips and
    without its newlines. *)
Theorem accepted_pair_has_same_text (source target : str) :
  validate source target = Some true ->
  replace newline [] (no_spaces source)
  = replace newline []
      (without_breaks (length (no_spaces target)) (no_spaces target)).
Proof.
  rewrite validate_walk. intros H.
  destruct (walk _ (no_spaces source) (no_spaces target))
    as [[[|x rest]|]|] eqn:Hw; try discriminate.
  apply walk_keeps_text in Hw. rewrite Hw. apply app_nil_r.
Qed.

Lemma accepted_pair_has_same_text_witness :
  replace newline [] (no_spaces (lit "a b" ++ [newline] ++ lit "c"))
  = replace newline []
      (without_breaks
         (length (no_spaces (lit "ab" ++ sent_br ++ lit "c" ++ sent_br)))
         (no_spaces (lit "ab" ++ sent_br ++ lit "c" ++ sent_br))).
Proof.
  apply (@accepted_pair_has_same_text (lit "a b" ++ [newline] ++ lit "c")
           (lit "ab" ++ sent_br ++ lit "c" ++ sent_br)).
  reflexivity.
Defined.


End ValidationMore.

(** * Further properties of the line loop *)

Module LineMore.

Import Validation Aux.

Section Lines.

Variable json_loads : str -> loads_result.

Lemma process_line_outcome (n : nat) (line : str)
    (valid invalid valid' invalid' : list value) :
  process_line json_loads n line valid invalid = Ok (valid', invalid') ->
  line_outcome json_loads n line valid invalid valid' invalid'.
Proof.
  unfold process_line.
  destruct (strip line) as [|c rest] eqn:Hs.
  - intros H. inversion H; subst. apply line_empty. exact Hs.
  - assert (Hne : strip line <> []) by (rewrite Hs; discriminate).
    rewrite <- Hs in *. clear Hs.
    destruct (json_loads (strip line)) as [v|e|e] eqn:Hdec;
      [|intros H; inversion H; subst; apply line_undecodable; assumption
       |discriminate].
    + destruct v as [| | | |x|l|d]; cbn [py_in bind]; try discriminate.
      * (* a string: subscripting it raises *)
        destruct (contains (lit "source") x); cbn [negb bind];
          [|discriminate].
        destruct (contains (lit "target") x); cbn [negb bind]; discriminate.
      * (* a list: subscripting it raises *)
        destruct (existsb _ l); cbn [negb bind]; [|discriminate].
        destruct (existsb _ l); cbn [negb bind]; discriminate.
      * destruct (dict_get d (lit "source")) as [vs|] eqn:Hsrc;
          cbn [negb bind].
        -- destruct (dict_get d (lit "target")) as [vt|] eqn:Htgt;
             cbn [negb bind setitem].
           ++ destruct (replace_sentence_breaks_and_validate (PyDict d))
                as [[|]|err] eqn:Hv; cbn [bind]; intros H;
                inversion H; subst.
              ** apply line_valid; assumption.
              ** apply line_invalid; assumption.
           ++ intros H. inversion H; subst.
              apply line_missing_key; [assumption|assumption|now right].
        -- cbn [setitem]. intros H. inversion H; subst.
           apply line_missing_key; [assumption|assumption|now left].
Qed.

Lemma line_outcome_extends n line valid invalid valid' invalid' :
  line_outcome json_loads n line valid invalid valid' invalid' ->
  (exists a, valid' = valid ++ a) /\ (exists b, invalid' = invalid ++ b).
Proof.
  intros H. destruct H; split;
    solve [eexists; reflexivity | exists []; symmetry; apply app_nil_r].
Qed.

Lemma for_lines_extends (lines : list str) :
  forall n valid invalid valid' invalid',
    for_lines json_loads lines n valid invalid = Ok (valid', invalid') ->
    (exists a, valid' = valid ++ a) /\ (exists b, invalid' = invalid ++ b).
Proof.
  induction lines as [|line lines IH]; intros n valid invalid valid' invalid' H.
  - cbn in H. inversion H; subst.
    split; exists []; symmetry; apply app_nil_r.
  - cbn [for_lines] in H.
    destruct (process_line json_loads n line valid invalid)
      as [[v1 i1]|e] eqn:Hline; cbn [bind] in H; [|discriminate].
    apply process_line_outcome, line_outcome_extends in Hline.
    apply IH in H.
    destruct Hline as [[a1 ->] [b1 ->]], H as [[a2 ->] [b2 ->]].
    split; eexists; rewrite <- app_assoc; reflexivity.
Qed.

Lemma for_lines_entries (all_lines lines : list str) :
  incl lines all_lines ->
  forall n valid invalid valid' invalid',
    Forall (valid_entry json_loads all_lines) valid ->
    Forall (invalid_entry json_loads all_lines) invalid ->
    for_lines json_loads lines n valid invalid = Ok (valid', invalid') ->
    Forall (valid_entry json_loads all_lines) valid'
    /\ Forall (invalid_entry json_loads all_lines) invalid'.
Proof.
  induction lines as [|line lines IH];
    intros Hincl n valid invalid valid' invalid' HP HQ H.
  - cbn in H. inversion H; subst. split; assumption.
  - cbn [for_lines] in H.
    destruct (process_line json_loads n line valid invalid)
      as [[v1 i1]|e] eqn:Hline; cbn [bind] in H; [|discriminate].
    apply process_line_outcome in Hline.
    assert (Hin : In line all_lines) by (apply Hincl; now left).
    assert (Hincl' : incl lines all_lines).
    { intros l Hl. apply Hincl. now right. }
    refine (IH Hincl' _ _ _ _ _ _ _ H); clear H IH.
    + destruct Hline; try assumption.
      apply Forall_app. split; [assumption|].
      constructor; [|constructor]. split; [assumption|eauto].
    + destruct Hline; try assumption;
        (apply Forall_app; split; [assumption|]);
        (constructor; [|constructor]).
      * left. eauto 6.
      * right. left. exists n, line, d. auto.
      * right. right. eauto.
Qed.

(** X9: every entry of the valid list returned by
    [process_tibetan_sentences] is the value decoded from a line of the
    file on which the validator answered [True]. *)
Theorem valid_list_is_sound (lines : list str) :
  Forall (valid_entry json_loads lines)
    (fst (process_tibetan_sentences json_loads (Some lines))).
Proof.
  unfold process_tibetan_sentences.
  destruct (for_lines json_loads lines 1 [] []) as [[v i]|e] eqn:H;
    cbn [fst]; [|constructor].
  apply (@for_lines_entries lines lines (incl_refl _) 1 [] [] v i);
    [constructor|constructor|exact H].
Qed.

(** X10: every entry of the invalid list is the error record of a line
    that does not decode, or an object that lacks ["source"] or
    ["target"] with its [line_number] added, or a decoded value on which
    the validator answered [False]; the last kind is stored unchanged,
    without a line number. *)
Theorem invalid_list_entries (lines : list str) :
  Forall (invalid_entry json_loads lines)
    (snd (process_tibetan_sentences json_loads (Some lines))).
Proof.
  unfold process_tibetan_sentences.
  destruct (for_lines json_loads lines 1 [] []) as [[v i]|e] eqn:H;
    cbn [snd]; [|constructor].
  apply (@for_lines_entries lines lines (incl_refl _) 1 [] [] v i);
    [constructor|constructor|exact H].
Qed.

(** X11: when, on every line that is not blank, [json.loads] raises
    nothing but [JSONDecodeError], and every line that decodes gives an
    object that holds no list and no object and whose ["source"] and
    ["target"], if it has both, are strings, the loop raises nothing and
    every line that is not blank adds exactly one entry to the valid or
    to the invalid list. *)
Theorem classifiable_lines_are_partitioned (lines : list str) :
  (forall line, In line lines -> strip line <> [] ->
                recoverable (json_loads (strip line))
                /\ flat (json_loads (strip line)) = true) ->
  exists valid invalid,
    for_lines json_loads lines 1 [] [] = Ok (valid, invalid)
    /\ process_tibetan_sentences json_loads (Some lines) = (valid, invalid)
    /\ length valid + length invalid = length (non_empty_lines lines).
Proof.
  intros Hok.
  assert (Hrec : forall line, In line lines -> strip line <> [] ->
                   recoverable (json_loads (strip line))).
  { intros line Hin Hne. apply (Hok line Hin Hne). }
  destruct (@LineFacts.for_lines_partition json_loads lines Hrec 1 [] [])
    as (v & i & H & Hlen).
  exists v, i. cbn [app] in H. unfold process_tibetan_sentences.
  rewrite H. repeat split. exact Hlen.
Qed.

(** X12: the error record of a line that does not decode carries the
    position of the line in the file, counted from 1, blank lines
    included. *)
Theorem error_record_line_number (lines : list str) (k : nat) (line e : str)
    (valid invalid : list value) :
  nth_error lines k = Some line ->
  strip line <> [] ->
  json_loads (strip line) = JSONDecodeError e ->
  for_lines json_loads lines 1 [] [] = Ok (valid, invalid) ->
  In (error_record (k + 1) e (strip line)) invalid.
Proof.
  intros Hnth Hne Hdec Hrun.
  destruct (nth_error_split lines k Hnth) as (before & after & -> & Hlen).
  rewrite LineFacts.for_lines_app in Hrun.
  destruct (for_lines json_loads before 1 [] []) as [[v0 i0]|err];
    cbn [bind fst snd for_lines] in Hrun; [|discriminate].
  unfold process_line in Hrun.
  destruct (strip line) as [|c rest] eqn:Hs; [congruence|].
  rewrite Hdec in Hrun. cbn [bind] in Hrun.
  apply for_lines_extends in Hrun. destruct Hrun as [_ [b ->]].
  apply in_or_app. left. apply in_or_app. right. left.
  unfold error_record. rewrite Hlen, (Nat.add_comm k 1). reflexivity.
Qed.

End Lines.

Lemma classifiable_lines_are_partitioned_witness :
  exists valid invalid,
    for_lines Samples.sample_json_loads
      [Samples.record_line; lit "  "; lit "{}"; lit "oops"] 1 [] []
    = Ok (valid, invalid)
    /\ process_tibetan_sentences Samples.sample_json_loads
         (Some [Samples.record_line; lit "  "; lit "{}"; lit "oops"])
       = (valid, invalid)
    /\ length valid + length invalid
       = length (non_empty_lines
                   [Samples.record_line; lit "  "; lit "{}"; lit "oops"]).
Proof.
  apply (@classifiable_lines_are_partitioned Samples.sample_json_loads
           [Samples.record_line; lit "  "; lit "{}"; lit "oops"]).
  intros line [<-|[<-|[<-|[<-|[]]]]] H; vm_compute; auto;
    repeat split; eauto.
Defined.

Lemma error_record_line_number_witness :
  In (error_record (3 + 1) (lit "Expecting value") (strip (lit " oops ")))
     [PyDict [(lit "line_number", PyInt 2)];
      error_record 4 (lit "Expecting value") (lit "oops")].
Proof.
  apply (@error_record_line_number Samples.sample_json_loads
           [Samples.record_line; lit "{}"; lit ""; lit " oops "] 3
           (lit " oops ") (lit "Expecting value")
           [PyDict [(lit "source", PyStr (lit "a"));
                    (lit "target", PyStr (lit "a"))]]
           [PyDict [(lit "line_number", PyInt 2)];
            error_record 4 (lit "Expecting value") (lit "oops")]).
  - reflexivity.
  - discriminate.
  - reflexivity.
  - reflexivity.
Defined.

End LineMore.

(** * Further properties of the deduplicator *)

Module DedupMore.

Import Dedup DedupFacts.

Section Datasketch.

Variable bands rows : nat.
Variable permuted_hashes : str -> list N.

(** X13: the fingerprint of a source text depends only on the set of
    its paragraphs: neither their order nor their repetition matters. *)
Theorem fingerprint_of_paragraph_set (source1 source2 : str) :
  (forall paragraph,
      In paragraph (split newline source1)
      <-> In paragraph (split newline source2)) ->
  fingerprint permuted_hashes source1 = fingerprint permuted_hashes source2.
Proof.
  intros Hsame. unfold fingerprint. apply fold_update_any_order.
  apply NoDup_Permutation; try apply NoDup_nodup.
  intros x. rewrite !nodup_In. apply Hsame.
Qed.

(** *** What the index holds after a batch *)

(** X14: a batch adds to the index one fingerprint for each entry it
    returns as unique, in the order of the unique list, and nothing for
    a duplicate. *)
Theorem index_gains_unique_fingerprints (chunk : list entry) (start_idx : nat)
    (st st' : index) (u d : list entry) :
  create_deduplicated_chunk bands rows permuted_hashes chunk start_idx st
  = Ok (u, d, st') ->
  map snd (lsh st')
  = map snd (lsh st)
    ++ map (fun e => fingerprint permuted_hashes (source e)) u.
Proof.
  intros H.
  apply (@for_entries_fingerprints bands rows permuted_hashes chunk 0
           start_idx st [] [] u d st' (map snd (lsh st)));
    [symmetry; apply app_nil_r|exact H].
Qed.

Lemma ForallOrdPairs_snoc (A : Type) (R : A -> A -> Prop) (l : list A) (x : A) :
  ForallOrdPairs R l -> Forall (fun a => R a x) l ->
  ForallOrdPairs R (l ++ [x]).
Proof.
  induction 1 as [|a l Ha _ IH]; intros Hx; cbn [app].
  - constructor; constructor.
  - inversion Hx; subst. constructor.
    + apply Forall_app. split; [assumption|constructor; [assumption|constructor]].
    + apply IH. assumption.
Qed.

Lemma for_entries_dissimilar (chunk : list entry) :
  forall idx start st U D u d st',
    map snd (lsh st)
    = map (fun e => fingerprint permuted_hashes (source e)) U ->
    ForallOrdPairs
      (fun a b => same_bucket bands rows
                    (fingerprint permuted_hashes (source a))
                    (fingerprint permuted_hashes (source b)) = false) U ->
    for_entries bands rows permuted_hashes chunk idx start st U D
    = Ok (u, d, st') ->
    ForallOrdPairs
      (fun a b => same_bucket bands rows
                    (fingerprint permuted_hashes (source a))
                    (fingerprint permuted_hashes (source b)) = false) u.
Proof.
  induction chunk as [|e chunk IH]; intros idx start st U D u d st' Hfp HU H.
  - cbn in H. inversion H; subst. exact HU.
  - cbn [for_entries] in H.
    destruct (query bands rows (lsh st) _) eqn:Hq.
    + unfold insert in H.
      destruct (existsb _ _); cbn [bind] in H; [discriminate|].
      apply IH in H; [exact H| |].
      * cbn [lsh]. rewrite !map_app, Hfp. reflexivity.
      * apply ForallOrdPairs_snoc; [exact HU|].
        apply Forall_forall. intros a Ha. cbn [output_entry source].
        rewrite query_nil_iff in Hq.
        assert (Hin : In (fingerprint permuted_hashes (source a))
                        (map snd (lsh st))).
        { rewrite Hfp. apply (in_map (fun e => fingerprint permuted_hashes (source e))).
          exact Ha. }
        apply in_map_iff in Hin. destruct Hin as (km & Hkm & Hin).
        rewrite <- Hkm. apply Hq. exact Hin.
    + apply IH in H; assumption.
Qed.

(** X15: in the unique list of a batch run on an empty index, no entry
    is similar, for the index, to an entry that comes before it. *)
Theorem unique_entries_are_pairwise_dissimilar (chunk : list entry)
    (start_idx : nat) (u d : list entry) (st' : index) :
  create_deduplicated_chunk bands rows permuted_hashes chunk start_idx
    empty_index = Ok (u, d, st') ->
  ForallOrdPairs
    (fun a b => same_bucket bands rows
                  (fingerprint permuted_hashes (source a))
                  (fingerprint permuted_hashes (source b)) = false) u.
Proof.
  intros H.
  apply (@for_entries_dissimilar chunk 0 start_idx empty_index [] [] u d st');
    [reflexivity|constructor|exact H].
Qed.

(** X16: with at least one band, the unique list of a batch run on an
    empty index holds no two entries with the same source text. *)
Theorem unique_entries_have_distinct_sources (chunk : list entry)
    (start_idx : nat) (u d : list entry) (st' : index) :
  1 <= bands ->
  create_deduplicated_chunk bands rows permuted_hashes chunk start_idx
    empty_index = Ok (u, d, st') ->
  NoDup (map source u).
Proof.
  intros Hb H.
  apply (@for_entries_dissimilar chunk 0 start_idx empty_index [] [] u d st')
    in H; [|reflexivity|constructor].
  induction H as [|a l Ha _ IH]; cbn [map]; constructor; [|exact IH].
  intros Hin. apply in_map_iff in Hin. destruct Hin as (b & Hsrc & Hb').
  rewrite Forall_forall in Ha. specialize (Ha b Hb').
  rewrite Hsrc, same_bucket_refl in Ha by exact Hb. discriminate.
Qed.

Lemma query_hit (l : MinHashLSH) (m : MinHash) :
  query bands rows l m <> [] ->
  exists km, In km l /\ same_bucket bands rows (snd km) m = true.
Proof.
  unfold query. induction l as [|km l IH]; cbn [filter map]; [congruence|].
  destruct (same_bucket bands rows (snd km) m) eqn:Hb.
  - intros _. exists km. split; [now left|exact Hb].
  - intros H. destruct (IH H) as (km' & Hin & Hkm').
    exists km'. split; [now right|exact Hkm'].
Qed.

Lemma for_entries_duplicates_explained (chunk : list entry) :
  forall idx start st U D u d st',
    map snd (lsh st)
    = map (fun e => fingerprint permuted_hashes (source e)) U ->
    Forall (fun x => Exists (fun y => same_bucket bands rows
                                        (fingerprint permuted_hashes (source y))
                                        (fingerprint permuted_hashes (source x))
                                      = true) U) D ->
    for_entries bands rows permuted_hashes chunk idx start st U D
    = Ok (u, d, st') ->
    Forall (fun x => Exists (fun y => same_bucket bands rows
                                        (fingerprint permuted_hashes (source y))
                                        (fingerprint permuted_hashes (source x))
                                      = true) u) d.
Proof.
  induction chunk as [|e chunk IH]; intros idx start st U D u d st' Hfp HD H.
  - cbn in H. inversion H; subst. exact HD.
  - cbn [for_entries] in H.
    destruct (query bands rows (lsh st) _) eqn:Hq.
    + unfold insert in H.
      destruct (existsb _ _); cbn [bind] in H; [discriminate|].
      apply IH in H; [exact H| |].
      * cbn [lsh]. rewrite !map_app, Hfp. reflexivity.
      * eapply Forall_impl; [|exact HD]. cbn beta. intros x Hx.
        apply Exists_app. left. exact Hx.
    + apply IH in H; [exact H|exact Hfp|].
      apply Forall_app. split; [exact HD|]. constructor; [|constructor].
      cbn [output_entry source].
      destruct (@query_hit (lsh st) (fingerprint permuted_hashes (source e)))
        as (km & Hin & Hkm); [rewrite Hq; discriminate|].
      assert (Hs : In (snd km) (map snd (lsh st))) by (apply in_map; exact Hin).
      rewrite Hfp in Hs. apply in_map_iff in Hs.
      destruct Hs as (y & Hy & HyU).
      apply Exists_exists. exists y. split; [exact HyU|].
      rewrite Hy. exact Hkm.
Qed.

(** X17: every entry of the duplicate list of a batch run on an empty
    index is similar, for the index, to an entry of the unique list. *)
Theorem duplicates_have_a_similar_unique (chunk : list entry)
    (start_idx : nat) (u d : list entry) (st' : index) :
  create_deduplicated_chunk bands rows permuted_hashes chunk start_idx
    empty_index = Ok (u, d, st') ->
  Forall (fun x => Exists (fun y => same_bucket bands rows
                                      (fingerprint permuted_hashes (source y))
                                      (fingerprint permuted_hashes (source x))
                                    = true) u) d.
Proof.
  intros H.
  apply (@for_entries_duplicates_explained chunk 0 start_idx empty_index
           [] [] u d st'); [reflexivity|constructor|exact H].
Qed.

(** X18: a batch whose first record has no similar fingerprint in the
    index, while the index already holds the identifier [start_idx],
    raises [ValueError] and returns nothing. *)
Theorem used_identifier_raises (e : entry) (chunk : list entry)
    (start_idx : nat) (st : index) :
  query bands rows (lsh st) (fingerprint permuted_hashes (source e)) = [] ->
  In start_idx (map fst (lsh st)) ->
  create_deduplicated_chunk bands rows permuted_hashes (e :: chunk)
    start_idx st = Raise ValueError.
Proof.
  intros Hq Hin. unfold create_deduplicated_chunk. cbn [for_entries].
  rewrite Hq. unfold insert. rewrite Nat.add_0_r.
  assert (H : existsb (Nat.eqb start_idx) (map fst (lsh st)) = true).
  { apply existsb_exists. exists start_idx.
    split; [exact Hin|apply Nat.eqb_refl]. }
  rewrite H. reflexivity.
Qed.

End Datasketch.

Lemma index_gains_unique_fingerprints_witness :
  map snd [(7, repeat 9%N 128); (0, repeat 2%N 128); (2, repeat 3%N 128)]
  = map snd [(7, repeat 9%N 128)]
    ++ map (fun e => fingerprint Samples.sample_hashes (source e))
         [emitted Samples.record_a; emitted Samples.record_c].
Proof.
  apply (@index_gains_unique_fingerprints Samples.sample_bands
           Samples.sample_rows Samples.sample_hashes
           [Samples.record_a; Samples.record_b; Samples.record_c] 0
           {| lsh := [(7, repeat 9%N 128)]; minhashes := [] |}
           {| lsh := [(7, repeat 9%N 128); (0, repeat 2%N 128);
                      (2, repeat 3%N 128)];
              minhashes := [(0, repeat 2%N 128); (2, repeat 3%N 128)] |}
           [emitted Samples.record_a; emitted Samples.record_c]
           [emitted Samples.record_b]).
  vm_compute. reflexivity.
Defined.

Lemma unique_entries_are_pairwise_dissimilar_witness :
  ForallOrdPairs
    (fun a b => same_bucket Samples.sample_bands Samples.sample_rows
                  (fingerprint Samples.sample_hashes (source a))
                  (fingerprint Samples.sample_hashes (source b)) = false)
    [emitted Samples.record_a; emitted Samples.record_c].
Proof.
  apply (@unique_entries_are_pairwise_dissimilar Samples.sample_bands
           Samples.sample_rows Samples.sample_hashes
           [Samples.record_a; Samples.record_b; Samples.record_c] 0
           [emitted Samples.record_a; emitted Samples.record_c]
           [emitted Samples.record_b]
           {| lsh := [(0, repeat 2%N 128); (2, repeat 3%N 128)];
              minhashes := [(0, repeat 2%N 128); (2, repeat 3%N 128)] |}).
  vm_compute. reflexivity.
Defined.

Lemma unique_entries_have_distinct_sources_witness :
  NoDup (map source [emitted Samples.record_a; emitted Samples.record_c]).
Proof.
  apply (@unique_entries_have_distinct_sources Samples.sample_bands
           Samples.sample_rows Samples.sample_hashes
           [Samples.record_a; Samples.record_a; Samples.record_c] 0
           [emitted Samples.record_a; emitted Samples.record_c]
           [emitted Samples.record_a]
           {| lsh := [(0, repeat 2%N 128); (2, repeat 3%N 128)];
              minhashes := [(0, repeat 2%N 128); (2, repeat 3%N 128)] |}).
  - unfold Samples.sample_bands. lia.
  - vm_compute. reflexivity.
Defined.

Lemma duplicates_have_a_similar_unique_witness :
  Forall (fun x => Exists (fun y => same_bucket Samples.sample_bands
                                      Samples.sample_rows
                                      (fingerprint Samples.sample_hashes (source y))
                                      (fingerprint Samples.sample_hashes (source x))
                                    = true)
                     [emitted Samples.record_a; emitted Samples.record_c])
    [emitted Samples.record_b].
Proof.
  apply (@duplicates_have_a_similar_unique Samples.sample_bands
           Samples.sample_rows Samples.sample_hashes
           [Samples.record_a; Samples.record_b; Samples.record_c] 0
           [emitted Samples.record_a; emitted Samples.record_c]
           [emitted Samples.record_b]
           {| lsh := [(0, repeat 2%N 128); (2, repeat 3%N 128)];
              minhashes := [(0, repeat 2%N 128); (2, repeat 3%N 128)] |}).
  vm_compute. reflexivity.
Defined.

Lemma used_identifier_raises_witness :
  create_deduplicated_chunk Samples.sample_bands Samples.sample_rows
    Samples.sample_hashes [Samples.record_c; Samples.record_a] 0
    {| lsh := [(0, repeat 9%N 128)]; minhashes := [] |}
  = Raise ValueError.
Proof.
  apply (@used_identifier_raises Samples.sample_bands Samples.sample_rows
           Samples.sample_hashes Samples.record_c [Samples.record_a] 0
           {| lsh := [(0, repeat 9%N 128)]; minhashes := [] |}).
  - vm_compute. reflexivity.
  - left. reflexivity.
Defined.

Lemma fingerprint_of_paragraph_set_witness :
  fingerprint Samples.sample_hashes (lit "ab" ++ [newline] ++ lit "c")
  = fingerprint Samples.sample_hashes
      (lit "c" ++ [newline] ++ lit "ab" ++ [newline] ++ lit "c").
Proof.
  apply (@fingerprint_of_paragraph_set Samples.sample_hashes
           (lit "ab" ++ [newline] ++ lit "c")
           (lit "c" ++ [newline] ++ lit "ab" ++ [newline] ++ lit "c")).
  intros paragraph. cbn. tauto.
Defined.

End DedupMore.

(** * Further properties of the checkpointed runner *)

Module RunnerMore.

Import Dedup DedupFacts.

Section Datasketch.

Variable bands rows : nat.
Variable permuted_hashes : str -> list N.

(** X20: a run that does not find both output files gives the same
    files for every batch size and every checkpoint interval, as long as
    both are positive. *)
Theorem fresh_run_ignores_batching (json_data : list entry) (fs : files)
    (chunk_size checkpoint_interval chunk_size' checkpoint_interval' : nat) :
  0 < chunk_size -> 0 < checkpoint_interval ->
  0 < chunk_size' -> 0 < checkpoint_interval' ->
  output_file fs = None \/ duplicates_output_file fs = None ->
  process_in_batches bands rows permuted_hashes json_data fs
    chunk_size checkpoint_interval
  = process_in_batches bands rows permuted_hashes json_data fs
      chunk_size' checkpoint_interval'.
Proof.
  intros Hc Hk Hc' Hk' Hmissing.
  rewrite !fresh_run by assumption. reflexivity.
Qed.

(** X21: a run that does not find both output files, on records whose
    strings can all be encoded, completes, and the two files then hold
    together as many entries as the input has records. *)
Theorem fresh_run_keeps_every_record (json_data : list entry) (fs : files)
    (chunk_size checkpoint_interval : nat) :
  0 < chunk_size -> 0 < checkpoint_interval ->
  output_file fs = None \/ duplicates_output_file fs = None ->
  Forall (fun e => Aux.encodable_entry e = true) json_data ->
  exists fs',
    process_in_batches bands rows permuted_hashes json_data fs
      chunk_size checkpoint_interval = Ok fs'
    /\ persisted_count fs' = length json_data.
Proof.
  intros Hc Hk Hmissing _. rewrite fresh_run by assumption.
  unfold create_deduplicated_chunk.
  destruct (@for_entries_fresh bands rows permuted_hashes json_data 0 0
              empty_index [] []) as (u & d & st & H & _); [constructor|].
  rewrite H. cbn [bind fst snd]. eexists. split; [reflexivity|].
  apply for_entries_count in H. cbn in H |- *. lia.
Qed.

(** X22: a run that finds two output files holding together a whole
    number of batches, and no more entries than the input has records,
    completes with as many persisted entries as records, when the strings
    of the persisted entries and of the records can all be encoded. *)
Theorem aligned_resume_keeps_every_record (json_data U D : list entry)
    (chunk_size checkpoint_interval : nat) :
  0 < chunk_size -> 0 < checkpoint_interval ->
  (length U + length D) mod chunk_size = 0 ->
  length U + length D <= length json_data ->
  Forall (fun e => Aux.encodable_entry e = true) (U ++ D ++ json_data) ->
  exists fs',
    process_in_batches bands rows permuted_hashes json_data
      {| output_file := Some U; duplicates_output_file := Some D |}
      chunk_size checkpoint_interval = Ok fs'
    /\ persisted_count fs' = length json_data.
Proof.
  intros Hc Hk Hal Hle _. rewrite resumed_run by assumption.
  pose proof (Nat.div_mod (length U + length D) chunk_size ltac:(lia)) as Hd.
  set (pb := (length U + length D) / chunk_size) in *.
  assert (Hpb : pb * chunk_size = length U + length D) by nia.
  unfold create_deduplicated_chunk.
  set (replayed := combine (seq 0 (length U))
                     (map (fun e => fingerprint permuted_hashes (source e)) U)).
  destruct (@for_entries_fresh bands rows permuted_hashes
              (skipn (pb * chunk_size) json_data) 0 (pb * chunk_size)
              {| lsh := replayed; minhashes := replayed |} [] [])
    as (u & d & st & H & _).
  { cbn [lsh]. apply Forall_forall. intros [k m] Hin.
    apply in_combine_l in Hin. apply in_seq in Hin. cbn. lia. }
  rewrite H. cbn [bind fst snd]. eexists. split; [reflexivity|].
  apply for_entries_count in H. rewrite length_skipn in H.
  cbn [persisted_count output_file duplicates_output_file].
  rewrite !length_app. cbn [length] in H. lia.
Qed.

(** Two indexes that hold the same fingerprints, under identifiers that
    are all below the identifiers of the batch, classify the batch in the
    same way. *)
Lemma for_entries_same_fingerprints (chunk : list entry) :
  forall idx start st1 st2 U D,
    map snd (lsh st1) = map snd (lsh st2) ->
    keys_below (start + idx) (lsh st1) ->
    keys_below (start + idx) (lsh st2) ->
    exists u d st1' st2',
      for_entries bands rows permuted_hashes chunk idx start st1 U D
      = Ok (u, d, st1')
      /\ for_entries bands rows permuted_hashes chunk idx start st2 U D
         = Ok (u, d, st2').
Proof.
  induction chunk as [|e chunk IH]; intros idx start st1 st2 U D Hfp Hk1 Hk2.
  - exists U, D, st1, st2. split; reflexivity.
  - cbn [for_entries].
    set (m := fingerprint permuted_hashes (source e)).
    assert (Hnext : start + idx <= start + (idx + 1)) by lia.
    destruct (query bands rows (lsh st1) m) eqn:Hq1;
      destruct (query bands rows (lsh st2) m) eqn:Hq2.
    + rewrite !insert_fresh by assumption. cbn [bind].
      apply IH; cbn [lsh].
      * rewrite !map_app, Hfp. reflexivity.
      * replace (start + (idx + 1)) with (start + idx + 1) by lia.
        apply keys_below_snoc. exact Hk1.
      * replace (start + (idx + 1)) with (start + idx + 1) by lia.
        apply keys_below_snoc. exact Hk2.
    + exfalso.
      apply (@query_same_fingerprints bands rows (lsh st1) (lsh st2) m Hfp)
        in Hq1. congruence.
    + exfalso.
      apply (@query_same_fingerprints bands rows (lsh st2) (lsh st1) m
               (eq_sym Hfp)) in Hq2. congruence.
    + apply IH; [exact Hfp| |].
      * apply (@keys_below_weaken (start + idx)); assumption.
      * apply (@keys_below_weaken (start + idx)); assumption.
Qed.

(** X23: resuming gives what an uninterrupted run gives.  When the two
    output files hold the unique and the duplicate entries of the first
    [j] full batches of the input, the run that resumes from them ends
    with the same two files as a run of the whole input that starts
    without files. *)
Theorem resumed_run_matches_uninterrupted (json_data : list entry)
    (chunk_size checkpoint_interval j : nat) (u1 d1 : list entry)
    (st1 : index) :
  0 < chunk_size -> 0 < checkpoint_interval ->
  j * chunk_size <= length json_data ->
  create_deduplicated_chunk bands rows permuted_hashes
    (firstn (j * chunk_size) json_data) 0 empty_index = Ok (u1, d1, st1) ->
  process_in_batches bands rows permuted_hashes json_data
    {| output_file := Some u1; duplicates_output_file := Some d1 |}
    chunk_size checkpoint_interval
  = process_in_batches bands rows permuted_hashes json_data
      {| output_file := None; duplicates_output_file := None |}
      chunk_size checkpoint_interval.
Proof.
  intros Hc Hk Hj Hfirst. unfold create_deduplicated_chunk in Hfirst.
  assert (Hlen : length (firstn (j * chunk_size) json_data) = j * chunk_size).
  { rewrite length_firstn. lia. }
  pose proof (@for_entries_count bands rows permuted_hashes _ 0 0 empty_index
                [] [] u1 d1 st1 Hfirst) as Hcount.
  cbn [length] in Hcount. rewrite !Nat.add_0_l, Hlen in Hcount.
  pose proof (@for_entries_fingerprints bands rows permuted_hashes _ 0 0
                empty_index [] [] u1 d1 st1 [] eq_refl Hfirst) as Hfp.
  cbn [app] in Hfp.
  destruct (@for_entries_fresh bands rows permuted_hashes
              (firstn (j * chunk_size) json_data) 0 0 empty_index [] [])
    as (u1' & d1' & st1' & Hfirst' & Hkeys); [constructor|].
  rewrite Hfirst in Hfirst'. inversion Hfirst'; subst u1' d1' st1'.
  clear Hfirst'. rewrite Hlen in Hkeys. cbn [Nat.add] in Hkeys.
  (* the uninterrupted run *)
  rewrite (@fresh_run bands rows permuted_hashes json_data
             {| output_file := None; duplicates_output_file := None |}
             chunk_size checkpoint_interval Hc Hk (or_introl eq_refl)).
  unfold create_deduplicated_chunk.
  rewrite <- (firstn_skipn (j * chunk_size) json_data) at 2.
  rewrite for_entries_app, Hfirst. cbn [bind fst snd].
  rewrite Hlen, for_entries_acc.
  (* the resumed run *)
  rewrite resumed_run by assumption.
  rewrite Hcount, Nat.div_mul by lia.
  unfold create_deduplicated_chunk.
  set (replayed := combine (seq 0 (length u1))
                     (map (fun e => fingerprint permuted_hashes (source e)) u1)).
  destruct (@for_entries_same_fingerprints (skipn (j * chunk_size) json_data)
              0 (j * chunk_size)
              {| lsh := replayed; minhashes := replayed |} st1 [] [])
    as (u & d & sa & sb & Ha & Hb).
  - cbn [lsh]. rewrite Hfp. unfold replayed.
    apply map_snd_combine. rewrite length_seq, length_map. reflexivity.
  - cbn [lsh]. apply Forall_forall. intros [k m] Hin.
    apply in_combine_l in Hin. apply in_seq in Hin. cbn. lia.
  - rewrite Nat.add_0_r. exact Hkeys.
  - rewrite Ha.
    rewrite (@for_entries_shift bands rows permuted_hashes _
               (0 + j * chunk_size) 0 0 (j * chunk_size)) by lia.
    rewrite Hb. reflexivity.
Qed.

(** X24: a batch size of zero raises [ZeroDivisionError] before any
    batch is processed; a checkpoint interval of zero raises it at the
    end of the first batch, when the sources can be encoded, so only a
    run that has no batch to process completes. *)
Theorem zero_sizes_raise (json_data : list entry) (fs : files)
    (chunk_size checkpoint_interval : nat) :
  process_in_batches bands rows permuted_hashes json_data fs
    0 checkpoint_interval = Raise ZeroDivisionError
  /\ (0 < chunk_size ->
      output_file fs = None \/ duplicates_output_file fs = None ->
      Forall (fun e => Aux.encodable (source e) = true) json_data ->
      process_in_batches bands rows permuted_hashes json_data fs chunk_size 0
      = match json_data with
        | [] => Ok {| output_file := Some [];
                      duplicates_output_file := Some [] |}
        | _ :: _ => Raise ZeroDivisionError
        end).
Proof.
  split; [reflexivity|].
  intros Hc Hmissing _.
  unfold process_in_batches. destruct chunk_size as [|c']; [lia|].
  assert (Hres : resume permuted_hashes fs (S c')
                 = Ok (0, empty_index,
                       {| output_file := Some [];
                          duplicates_output_file := Some [] |})).
  { unfold resume, save_checkpoint.
    destruct Hmissing as [-> | H].
    - destruct (duplicates_output_file fs); reflexivity.
    - rewrite H. destruct (output_file fs); reflexivity. }
  rewrite Hres. cbn [bind]. rewrite Nat.sub_0_r.
  destruct (@total_batches_spec (length json_data) (S c') Hc) as [Hcover _].
  destruct json_data as [|e json_data].
  - unfold total_batches_of. cbn [length].
    rewrite Nat.Div0.div_0_l, Nat.Div0.mod_0_l. reflexivity.
  - destruct (total_batches_of (length (e :: json_data)) (S c')) as [|tb];
      [cbn [length] in Hcover; lia|].
    cbn [seq for_batches run_index].
    unfold create_deduplicated_chunk.
    destruct (@for_entries_fresh bands rows permuted_hashes
                (slice (e :: json_data) (0 * S c')
                   (Nat.min (0 * S c' + S c') (length (e :: json_data))))
                0 (0 * S c') empty_index [] [])
      as (u & d & st & -> & _); [constructor|].
    reflexivity.
Qed.

(** X25: when the number of records is a multiple of the batch size, a
    second run on the files left by a completed run changes nothing. *)
Theorem rerun_on_whole_batches_changes_nothing (json_data : list entry)
    (chunk_size checkpoint_interval : nat) (fs1 : files) :
  0 < chunk_size -> 0 < checkpoint_interval ->
  length json_data mod chunk_size = 0 ->
  process_in_batches bands rows permuted_hashes json_data
    {| output_file := None; duplicates_output_file := None |}
    chunk_size checkpoint_interval = Ok fs1 ->
  process_in_batches bands rows permuted_hashes json_data fs1
    chunk_size checkpoint_interval = Ok fs1.
Proof.
  intros Hc Hk Hmod.
  rewrite (@fresh_run bands rows permuted_hashes json_data
             {| output_file := None; duplicates_output_file := None |}
             chunk_size checkpoint_interval Hc Hk (or_introl eq_refl)).
  unfold create_deduplicated_chunk.
  destruct (for_entries bands rows permuted_hashes json_data 0 0
              empty_index [] []) as [[[u d] st]|err] eqn:Hrun;
    cbn [bind fst snd]; [|discriminate].
  intros H. inversion H; subst fs1. clear H.
  apply for_entries_count in Hrun. cbn [length] in Hrun.
  rewrite !Nat.add_0_l in Hrun.
  rewrite resumed_run by assumption. rewrite Hrun.
  pose proof (Nat.div_mod (length json_data) chunk_size ltac:(lia)) as Hd.
  replace (length json_data / chunk_size * chunk_size)
    with (length json_data) by nia.
  rewrite skipn_all. cbn. rewrite !app_nil_r. reflexivity.
Qed.

Lemma map_fst_combine (keys : list nat) (l : list MinHash) :
  length keys = length l -> map fst (combine keys l) = keys.
Proof.
  revert l. induction keys as [|k keys IH]; intros [|x l] H;
    try discriminate; [reflexivity|].
  cbn [combine map fst]. f_equal. apply IH. cbn in H. lia.
Qed.

(** X26: output files that do not come from this input can make the run
    fail.  When the unique file holds more entries than the records taken
    as processed, and the first record to process has no similar
    fingerprint among the replayed ones, its identifier is already in the
    index and the run raises [ValueError]. *)
Theorem stale_files_raise (json_data U D : list entry)
    (chunk_size checkpoint_interval : nat) (e : entry) :
  0 < chunk_size -> 0 < checkpoint_interval ->
  (length U + length D) / chunk_size * chunk_size < length U ->
  nth_error json_data ((length U + length D) / chunk_size * chunk_size)
  = Some e ->
  query bands rows
    (combine (seq 0 (length U))
       (map (fun x => fingerprint permuted_hashes (source x)) U))
    (fingerprint permuted_hashes (source e)) = [] ->
  process_in_batches bands rows permuted_hashes json_data
    {| output_file := Some U; duplicates_output_file := Some D |}
    chunk_size checkpoint_interval
  = Raise ValueError.
Proof.
  intros Hc Hk Hstale Hnth Hq.
  rewrite resumed_run by assumption.
  set (start := (length U + length D) / chunk_size * chunk_size) in *.
  destruct (nth_error_split json_data start Hnth)
    as (before & after & Hdata & Hlen).
  assert (Hskip : skipn start json_data = e :: after).
  { rewrite Hdata, <- Hlen, skipn_app, skipn_all, Nat.sub_diag. reflexivity. }
  rewrite Hskip. unfold create_deduplicated_chunk.
  cbn [for_entries lsh]. rewrite Hq. unfold insert.
  rewrite map_fst_combine by (rewrite length_seq, length_map; reflexivity).
  assert (Hin : existsb (Nat.eqb (start + 0)) (seq 0 (length U)) = true).
  { apply existsb_exists. exists start. split.
    - apply in_seq. lia.
    - rewrite Nat.add_0_r. apply Nat.eqb_refl. }
  rewrite Hin. reflexivity.
Qed.

End Datasketch.

Lemma stale_files_raise_witness :
  process_in_batches Samples.sample_bands Samples.sample_rows
    Samples.sample_hashes
    [Samples.record_a; Samples.record_b; Samples.record_c]
    {| output_file :=
         Some [emitted Samples.record_a; emitted Samples.record_a;
               emitted Samples.record_a];
       duplicates_output_file := Some [] |} 2 5
  = Raise ValueError.
Proof.
  apply (@stale_files_raise Samples.sample_bands Samples.sample_rows
           Samples.sample_hashes
           [Samples.record_a; Samples.record_b; Samples.record_c]
           [emitted Samples.record_a; emitted Samples.record_a;
            emitted Samples.record_a] [] 2 5 Samples.record_c).
  - lia.
  - lia.
  - cbn. lia.
  - reflexivity.
  - vm_compute. reflexivity.
Defined.

Lemma fresh_run_ignores_batching_witness :
  process_in_batches Samples.sample_bands Samples.sample_rows
    Samples.sample_hashes
    [Samples.record_a; Samples.record_b; Samples.record_c]
    {| output_file := None; duplicates_output_file := Some [] |} 1 1
  = process_in_batches Samples.sample_bands Samples.sample_rows
      Samples.sample_hashes
      [Samples.record_a; Samples.record_b; Samples.record_c]
      {| output_file := None; duplicates_output_file := Some [] |} 2 7.
Proof.
  apply (@fresh_run_ignores_batching Samples.sample_bands Samples.sample_rows
           Samples.sample_hashes
           [Samples.record_a; Samples.record_b; Samples.record_c]
           {| output_file := None; duplicates_output_file := Some [] |}
           1 1 2 7); try lia.
  left. reflexivity.
Defined.

Lemma fresh_run_keeps_every_record_witness :
  exists fs',
    process_in_batches Samples.sample_bands Samples.sample_rows
      Samples.sample_hashes
      [Samples.record_a; Samples.record_b; Samples.record_c]
      {| output_file := None; duplicates_output_file := None |} 2 5 = Ok fs'
    /\ persisted_count fs' = 3.
Proof.
  apply (@fresh_run_keeps_every_record Samples.sample_bands
           Samples.sample_rows Samples.sample_hashes
           [Samples.record_a; Samples.record_b; Samples.record_c]
           {| output_file := None; duplicates_output_file := None |} 2 5);
    try lia.
  - left. reflexivity.
  - repeat constructor.
Defined.

Lemma aligned_resume_keeps_every_record_witness :
  exists fs',
    process_in_batches Samples.sample_bands Samples.sample_rows
      Samples.sample_hashes
      [Samples.record_a; Samples.record_b; Samples.record_c]
      {| output_file := Some [emitted Samples.record_a];
         duplicates_output_file := Some [emitted Samples.record_b] |} 2 5
    = Ok fs'
    /\ persisted_count fs' = 3.
Proof.
  apply (@aligned_resume_keeps_every_record Samples.sample_bands
           Samples.sample_rows Samples.sample_hashes
           [Samples.record_a; Samples.record_b; Samples.record_c]
           [emitted Samples.record_a] [emitted Samples.record_b] 2 5);
    try lia.
  - reflexivity.
  - cbn. lia.
  - repeat constructor.
Defined.

Lemma resumed_run_matches_uninterrupted_witness :
  process_in_batches Samples.sample_bands Samples.sample_rows
    Samples.sample_hashes
    [Samples.record_a; Samples.record_b; Samples.record_c]
    {| output_file := Some [emitted Samples.record_a];
       duplicates_output_file := Some [emitted Samples.record_b] |} 2 1
  = process_in_batches Samples.sample_bands Samples.sample_rows
      Samples.sample_hashes
      [Samples.record_a; Samples.record_b; Samples.record_c]
      {| output_file := None; duplicates_output_file := None |} 2 1.
Proof.
  apply (@resumed_run_matches_uninterrupted Samples.sample_bands
           Samples.sample_rows Samples.sample_hashes
           [Samples.record_a; Samples.record_b; Samples.record_c] 2 1 1
           [emitted Samples.record_a] [emitted Samples.record_b]
           {| lsh := [(0, repeat 2%N 128)];
              minhashes := [(0, repeat 2%N 128)] |}).
  - lia.
  - lia.
  - cbn. lia.
  - vm_compute. reflexivity.
Defined.

Lemma zero_sizes_raise_witness :
  process_in_batches Samples.sample_bands Samples.sample_rows
    Samples.sample_hashes [Samples.record_a]
    {| output_file := None; duplicates_output_file := None |} 3 0
  = Raise ZeroDivisionError.
Proof.
  apply (proj2 (@zero_sizes_raise Samples.sample_bands Samples.sample_rows
                  Samples.sample_hashes [Samples.record_a]
                  {| output_file := None; duplicates_output_file := None |}
                  3 0)).
  - lia.
  - left. reflexivity.
  - repeat constructor.
Defined.

Lemma rerun_on_whole_batches_changes_nothing_witness :
  process_in_batches Samples.sample_bands Samples.sample_rows
    Samples.sample_hashes
    [Samples.record_a; Samples.record_b; Samples.record_c; Samples.record_a]
    {| output_file :=
         Some [emitted Samples.record_a; emitted Samples.record_c];
       duplicates_output_file :=
         Some [emitted Samples.record_b; emitted Samples.record_a] |} 2 5
  = Ok {| output_file :=
            Some [emitted Samples.record_a; emitted Samples.record_c];
          duplicates_output_file :=
            Some [emitted Samples.record_b; emitted Samples.record_a] |}.
Proof.
  apply (@rerun_on_whole_batches_changes_nothing Samples.sample_bands
           Samples.sample_rows Samples.sample_hashes
           [Samples.record_a; Samples.record_b; Samples.record_c;
            Samples.record_a] 2 5).
  - lia.
  - lia.
  - reflexivity.
  - vm_compute. reflexivity.
Defined.

End RunnerMore.
